(** * Nexus DeFi engine: strategy pipeline and rebalancing analytics

    A shallow embedding of the TypeScript sources
    [lib/strategy-engine.ts] (StrategyParser, IndicatorCalculator,
    StrategyExecutor, PnLTracker) and [lib/defi-engine.ts]
    (YieldAggregator, RebalancingEngine), and the properties of the
    specification that concern them.

    Numbers.  The source computes with IEEE-754 doubles.  A number is a
    rational or one of the special values that decide control flow in
    the source ([NaN], the two infinities, and [undefined] read from an
    array out of range).  [Num] computes on finite values exactly; [F64]
    rounds the exact result of every operation to binary64: to nearest,
    ties to even, with gradual underflow and overflow to the infinities.
    Every zero is +0.  The numeric code of the strategy engine is
    embedded over both: the modules IndicatorCalculator, StrategyExecutor
    and PnLTracker over [Num], and module [Double], operation for
    operation the same code, over [F64]. *)

From Stdlib Require Import ZArith QArith Qcanon Qround Qpower Lia Lqa.
From Stdlib Require Import Ascii String.
From stdpp Require Import gmap strings list pretty sorting.

Local Open Scope Z_scope.

(** ** JavaScript numbers *)

Module Num.

(** A value of TypeScript type [number] as it exists at run time.
    [Undefined] is what an out-of-range array read yields; every
    arithmetic operator and every comparison first converts it to [NaN]. *)
Inductive num : Type :=
| Fin (q : Qc)
| PInf
| NInf
| NaN
| Undefined.

Definition ofQ (q : Q) : num := Fin (Q2Qc q).
Definition ofZ (z : Z) : num := ofQ (inject_Z z).
Definition ofNat (n : nat) : num := ofZ (Z.of_nat n).

Definition Qc_ltb (a b : Qc) : bool :=
  match Qccompare a b with Lt => true | _ => false end.
Definition Qc_eqb (a b : Qc) : bool :=
  match Qccompare a b with Eq => true | _ => false end.
Definition Qc_leb (a b : Qc) : bool :=
  match Qccompare a b with Gt => false | _ => true end.

Definition zeroQc : Qc := Q2Qc 0.

(** Sign of a finite value: the source never distinguishes -0 from +0. *)
Definition sgn (q : Qc) : comparison := Qccompare q zeroQc.

(** ToNumber *)
Definition toNumber (x : num) : num :=
  match x with Undefined => NaN | _ => x end.

Definition neg (x : num) : num :=
  match x with
  | Fin q => Fin (- q)%Qc
  | PInf => NInf
  | NInf => PInf
  | NaN | Undefined => NaN
  end.

Definition add (x y : num) : num :=
  match x, y with
  | Fin a, Fin b => Fin (a + b)%Qc
  | Fin _, PInf | PInf, Fin _ | PInf, PInf => PInf
  | Fin _, NInf | NInf, Fin _ | NInf, NInf => NInf
  | _, _ => NaN
  end.

Definition sub (x y : num) : num := add x (neg y).

(** An infinity with the sign of a comparison against zero; [Eq] is the
    indeterminate form. *)
Definition inf_of (s : comparison) : num :=
  match s with Gt => PInf | Lt => NInf | Eq => NaN end.

Definition flip (s : comparison) : comparison := CompOpp s.

Definition mul (x y : num) : num :=
  match x, y with
  | Fin a, Fin b => Fin (a * b)%Qc
  | Fin a, PInf | PInf, Fin a => inf_of (sgn a)
  | Fin a, NInf | NInf, Fin a => inf_of (flip (sgn a))
  | PInf, PInf | NInf, NInf => PInf
  | PInf, NInf | NInf, PInf => NInf
  | _, _ => NaN
  end.

Definition div (x y : num) : num :=
  match x, y with
  | Fin a, Fin b =>
      if Qc_eqb b zeroQc then inf_of (sgn a) else Fin (a / b)%Qc
  | Fin _, PInf | Fin _, NInf => Fin zeroQc
  | PInf, Fin b => if Qc_ltb b zeroQc then NInf else PInf
  | NInf, Fin b => if Qc_ltb b zeroQc then PInf else NInf
  | _, _ => NaN
  end.

(** [x < y]; false as soon as an operand is [NaN]. *)
Definition ltb (x y : num) : bool :=
  match x, y with
  | Fin a, Fin b => Qc_ltb a b
  | Fin _, PInf | NInf, Fin _ | NInf, PInf => true
  | _, _ => false
  end.

(** [x > y] *)
Definition gtb (x y : num) : bool := ltb y x.

(** [x <= y] and [x >= y] *)
Definition leb (x y : num) : bool :=
  match x, y with
  | Fin a, Fin b => Qc_leb a b
  | Fin _, PInf | NInf, Fin _ | NInf, PInf | PInf, PInf | NInf, NInf => true
  | _, _ => false
  end.
Definition geb (x y : num) : bool := leb y x.

(** [x === y] on values of type number *)
Definition eqb (x y : num) : bool :=
  match x, y with
  | Fin a, Fin b => Qc_eqb a b
  | PInf, PInf | NInf, NInf | Undefined, Undefined => true
  | _, _ => false
  end.

(** Math.abs *)
Definition abs (x : num) : num :=
  match x with
  | Fin q => if Qc_ltb q zeroQc then Fin (- q)%Qc else Fin q
  | PInf | NInf => PInf
  | NaN | Undefined => NaN
  end.

(** Math.max and Math.min of two arguments: [NaN] if either is. *)
Definition max (x y : num) : num :=
  match toNumber x, toNumber y with
  | NaN, _ | _, NaN => NaN
  | a, b => if ltb a b then b else a
  end.

Definition min (x y : num) : num :=
  match toNumber x, toNumber y with
  | NaN, _ | _, NaN => NaN
  | a, b => if ltb b a then b else a
  end.

(** Math.floor *)
Definition floor (x : num) : num :=
  match x with
  | Fin q => ofZ (Qfloor q)
  | Undefined => NaN
  | _ => x
  end.

(** Math.round: the nearest integer, ties towards +infinity. *)
Definition round (x : num) : num :=
  match x with
  | Fin q => ofZ (Qfloor (q + (1 # 2)))
  | Undefined => NaN
  | _ => x
  end.

Definition is_fin (x : num) : Prop :=
  match x with Fin _ => True | _ => False end.

(** Order on numbers as propositions, for statements. *)
Definition lt (x y : num) : Prop := ltb x y = true.
Definition le (x y : num) : Prop := leb x y = true.

End Num.

Import Num.

Declare Scope num_scope.
Delimit Scope num_scope with num.
Bind Scope num_scope with num.
Infix "+" := add : num_scope.
Infix "-" := sub : num_scope.
Infix "*" := mul : num_scope.
Infix "/" := div : num_scope.
Infix "<?" := ltb : num_scope.
Infix ">?" := gtb : num_scope.
Infix "===" := eqb (at level 70) : num_scope.
Notation "- x" := (neg x) : num_scope.
Coercion ofZ : Z >-> num.

(** ** Binary64

    The result of an operation on doubles is the exact result rounded to
    the nearest double.  A positive rational [a] with [2^e <= a < 2^(e+1)]
    lies between two neighbours on the grid of spacing [2^(e-52)], or of
    spacing [2^-1074] below [2^-1022]; it rounds to the nearer one, to
    the one with the even significand on a tie, and to infinity when that
    neighbour is [2^1024]. *)

Module F64.

Definition pow2 (e : Z) : Q := (2 ^ e)%Q.

(** The exponent of a positive rational: [2^e <= a < 2^(e+1)]. *)
Definition ilog2 (a : Q) : Z :=
  let e := Z.log2 (Qnum a) - Z.log2 (Zpos (Qden a)) in
  if Qle_bool (pow2 e) a then e else e - 1.

(** The nearest integer, ties to even. *)
Definition rne (x : Q) : Z :=
  let f := Qfloor x in
  match (x - inject_Z f ?= 1 # 2)%Q with
  | Lt => f
  | Gt => f + 1
  | Eq => if Z.even f then f else f + 1
  end.

(** The exponent of the binade of a positive rational; the subnormal
    numbers share the lowest one. *)
Definition expo (a : Q) : Z := Z.max (ilog2 a) (-1022).

(** The unit in the last place. *)
Definition ulp (a : Q) : Q := pow2 (expo a - 52).

(** A positive rational rounded to 53 bits, the exponent not bounded
    above. *)
Definition nearest (a : Q) : Q := (inject_Z (rne (a / ulp a)) * ulp a)%Q.

Definition rnd (q : Q) : num :=
  match (q ?= 0)%Q with
  | Eq => Fin (Q2Qc 0)
  | Gt => let r := nearest q in
          if Qle_bool (pow2 1024) r then PInf else Fin (Q2Qc r)
  | Lt => let r := nearest (- q) in
          if Qle_bool (pow2 1024) r then NInf else Fin (Q2Qc (- r))
  end.

(** The result of an operation: the exact result, rounded. *)
Definition fl (x : num) : num :=
  match x with Fin q => rnd q | _ => x end.

Definition add (x y : num) : num := fl (Num.add x y).
Definition sub (x y : num) : num := fl (Num.sub x y).
Definition mul (x y : num) : num := fl (Num.mul x y).
Definition div (x y : num) : num := fl (Num.div x y).

(** A decimal literal of the source, and the number that a decimal text
    denotes: the nearest double. *)
Definition ofQ (q : Q) : num := rnd q.
Definition ofZ (z : Z) : num := rnd (inject_Z z).

(** A number that a variable of the source can hold. *)
Definition representable (x : num) : Prop := fl x = x.

End F64.

Declare Scope f64_scope.
Delimit Scope f64_scope with f64.
Arguments F64.add (x y)%_f64_scope.
Arguments F64.sub (x y)%_f64_scope.
Arguments F64.mul (x y)%_f64_scope.
Arguments F64.div (x y)%_f64_scope.
Infix "+" := F64.add : f64_scope.
Infix "-" := F64.sub : f64_scope.
Infix "*" := F64.mul : f64_scope.
Infix "/" := F64.div : f64_scope.
Notation "x <? y" := (ltb x%f64 y%f64) : f64_scope.
Notation "x >? y" := (gtb x%f64 y%f64) : f64_scope.
Notation "x === y" := (eqb x%f64 y%f64) (at level 70) : f64_scope.
Notation "- x" := (neg x%f64) : f64_scope.


(** ** Strings and regular expressions

    Strings are sequences of characters; the regular expressions of the
    source are values of [regex], matched with the backtracking
    discipline of the language: alternatives left to right, greedy
    repetition, first match from the left. *)

Module Str.

Abbreviation str := (list ascii).

Definition lit (s : string) : str := list_ascii_of_string s.

Definition lower (c : ascii) : ascii :=
  let n := nat_of_ascii c in
  if ((65 <=? n) && (n <=? 90))%nat then ascii_of_nat (n + 32) else c.

(** String.prototype.toLowerCase, on the ASCII range *)
Definition toLowerCase (s : str) : str := map lower s.

Definition ascii_eqb (a b : ascii) : bool := Ascii.eqb a b.

Fixpoint startsWith (p s : str) : bool :=
  match p, s with
  | [], _ => true
  | _ :: _, [] => false
  | a :: p', b :: s' => ascii_eqb a b && startsWith p' s'
  end.

(** String.prototype.includes *)
Fixpoint includes (s p : str) : bool :=
  startsWith p s ||
  match s with
  | [] => false
  | _ :: s' => includes s' p
  end.

Definition isDigit (c : ascii) : bool :=
  let n := nat_of_ascii c in ((48 <=? n) && (n <=? 57))%nat.

(** The class \s, on the ASCII range: tab, line feed, vertical tab, form
    feed, carriage return, space. *)
Definition isSpace (c : ascii) : bool :=
  let n := nat_of_ascii c in (((9 <=? n) && (n <=? 13)) || (n =? 32))%nat.

Inductive regex : Type :=
| Eps
| Chr (c : ascii)
| Digit
| Space
| Seq (r1 r2 : regex)
| Alt (r1 r2 : regex)
| Star (r : regex)
| Group (r : regex).

Definition Plus (r : regex) : regex := Seq r (Star r).
Definition Opt (r : regex) : regex := Alt r Eps.
Fixpoint Times (n : nat) (r : regex) : regex :=
  match n with O => Eps | S n' => Seq r (Times n' r) end.
Fixpoint Lit (s : str) : regex :=
  match s with [] => Eps | c :: s' => Seq (Chr c) (Lit s') end.

Section Matcher.
(** [ci] is the flag i. *)
Variable ci : bool.
Variable R : Type.

Definition chr_matches (c x : ascii) : bool :=
  if ci then ascii_eqb (lower c) (lower x) else ascii_eqb c x.

(** [run r s cap k]: match [r] at the head of [s], then continue with
    [k] on the rest; [cap] is the text of capture group 1, if set. *)
Fixpoint run (r : regex) (s : str) (cap : option str)
    (k : str -> option str -> option R) {struct r} : option R :=
  match r with
  | Eps => k s cap
  | Chr c =>
      match s with
      | x :: s' => if chr_matches c x then k s' cap else None
      | [] => None
      end
  | Digit =>
      match s with
      | x :: s' => if isDigit x then k s' cap else None
      | [] => None
      end
  | Space =>
      match s with
      | x :: s' => if isSpace x then k s' cap else None
      | [] => None
      end
  | Seq r1 r2 => run r1 s cap (fun s' cap' => run r2 s' cap' k)
  | Alt r1 r2 =>
      match run r1 s cap k with
      | Some x => Some x
      | None => run r2 s cap k
      end
  | Star r1 =>
      (fix loop (n : nat) (s : str) (cap : option str) : option R :=
         match n with
         | O => k s cap
         | S n' =>
             match run r1 s cap (fun s' cap' =>
                     if (length s' <? length s)%nat
                     then loop n' s' cap' else None) with
             | Some x => Some x
             | None => k s cap
             end
         end) (length s) s cap
  | Group r1 =>
      run r1 s cap (fun s' _ =>
        k s' (Some (take (length s - length s') s)))
  end.
End Matcher.

(** What [input.match(re)] returns for a regular expression without the
    flag g: [None] is null, otherwise the text of group 1 ([None] when
    the group took no part in the match). *)
Fixpoint match_ (ci : bool) (r : regex) (s : str) : option (option str) :=
  match run ci (option str) r s None (fun _ cap => Some cap) with
  | Some cap => Some cap
  | None =>
      match s with
      | [] => None
      | _ :: s' => match_ ci r s'
      end
  end.

(** [s.replace(/c/g, '')] for a single character [c] *)
Definition removeAll (c : ascii) (s : str) : str :=
  filter (fun x => ascii_eqb x c = false) s.

(** [s.split(sep)[0]] for a single character [sep] *)
Fixpoint splitHead (sep : ascii) (s : str) : str :=
  match s with
  | [] => []
  | x :: s' => if ascii_eqb x sep then [] else x :: splitHead sep s'
  end.

Definition digitVal (c : ascii) : Z := Z.of_nat (nat_of_ascii c) - 48.

(** The longest prefix of digits, as a number, and the rest. *)
Fixpoint digits (acc : Z) (s : str) : Z * str :=
  match s with
  | x :: s' => if isDigit x then digits (10 * acc + digitVal x) s' else (acc, s)
  | [] => (acc, s)
  end.

Fixpoint dropSpaces (s : str) : str :=
  match s with
  | x :: s' => if isSpace x then dropSpaces s' else s
  | [] => []
  end.

Definition startsWithDigit (s : str) : bool :=
  match s with x :: _ => isDigit x | [] => false end.

(** parseInt with radix 10 on unsigned decimal text (the arguments in the
    source are matches of \d+); [undefined] and text that does not start
    with a digit give [NaN].  The result is the double nearest to the
    integer read. *)
Definition parseInt (o : option str) : num :=
  match o with
  | None => NaN
  | Some s =>
      let s := dropSpaces s in
      if startsWithDigit s then F64.ofZ (fst (digits 0 s)) else NaN
  end.

(** parseFloat on unsigned decimal text with an optional fraction: the
    double nearest to the decimal read. *)
Definition parseFloat (s : str) : num :=
  let s := dropSpaces s in
  if startsWithDigit s then
    let '(ip, rest) := digits 0 s in
    match rest with
    | "."%char :: frac =>
        let '(fp, rest') := digits 0 frac in
        let nd := (length frac - length rest')%nat in
        F64.ofQ (inject_Z ip + inject_Z fp / inject_Z (10 ^ Z.of_nat nd))
    | _ => F64.ofZ ip
    end
  else NaN.

End Str.

Import Str.

(** ** Data model of the strategy engine *)

Inductive ConditionType := CtPrice | CtIndicator | CtTime | CtVolume.
Inductive Indicator := RSI | MACD | BB | SMA | EMA.
Inductive Comparator := CLt | CGt | CEq | CrossesAbove | CrossesBelow.
Inductive Timeframe := Tf1m | Tf5m | Tf15m | Tf1h | Tf4h | Tf1d.
Inductive ExecutionType := Market | Limit.
Inductive Phase := Entry | Exit.

Record StrategyCondition := {
  type : ConditionType;
  indicator : option Indicator;
  condition : Comparator;
  value : num;
  timeframe : option Timeframe
}.

Record ParsedStrategy := {
  name : str;
  asset : str;
  entry : StrategyCondition;
  exit : StrategyCondition;
  maxPosition : num;
  riskPercent : num;
  executionType : ExecutionType;
  stopLoss : option num;
  takeProfit : option num
}.

(** ** StrategyParser *)

Module StrategyParser.

Definition s_star : regex := Star Space.
Definition number1 : regex := Group (Plus Digit).
Definition alts (l : list string) : regex :=
  match map (fun s => Lit (lit s)) l with
  | [] => Eps
  | r :: rs => fold_left Alt rs r
  end.

(** /rsi\s*(?:below|<|less than)\s*(\d+)/i *)
Definition re_rsi_below : regex :=
  Seq (Lit (lit "rsi")) (Seq s_star
    (Seq (alts ["below"; "<"; "less than"]) (Seq s_star number1))).
(** /rsi\s*(?:above|>|greater than)\s*(\d+)/i *)
Definition re_rsi_above : regex :=
  Seq (Lit (lit "rsi")) (Seq s_star
    (Seq (alts ["above"; ">"; "greater than"]) (Seq s_star number1))).
(** /rsi\s*(?:crosses?)\s*(\d+)/i *)
Definition re_rsi_crosses : regex :=
  Seq (Lit (lit "rsi")) (Seq s_star
    (Seq (Seq (Lit (lit "crosse")) (Opt (Chr "s"))) (Seq s_star number1))).
(** /(\d+)%/ *)
Definition re_percent : regex := Seq number1 (Chr "%").
(** /\$?\s*(\d+(?:,\d{3})*(?:\.\d{2})?)/ *)
Definition re_dollars : regex :=
  Seq (Opt (Chr "$")) (Seq s_star
    (Group (Seq (Plus Digit)
       (Seq (Star (Seq (Chr ",") (Times 3 Digit)))
            (Opt (Seq (Chr ".") (Times 2 Digit))))))).
(** /(\d+)%\s*(?:of|risk)/i *)
Definition re_risk : regex :=
  Seq number1 (Seq (Chr "%") (Seq s_star (alts ["of"; "risk"]))).
(** /stop\s*loss\s*(?:at\s{0,})?(\d+)%/i, the source writing \s* for
    \s{0,} *)
Definition re_stop_loss : regex :=
  Seq (Lit (lit "stop")) (Seq s_star (Seq (Lit (lit "loss")) (Seq s_star
    (Seq (Opt (Seq (Lit (lit "at")) s_star)) (Seq number1 (Chr "%")))))).
(** /(?:take\s*profit|sell\s*when\s*up)\s*(?:at\s{0,})?(\d+)%/i, likewise *)
Definition re_take_profit : regex :=
  Seq (Alt (Seq (Lit (lit "take")) (Seq s_star (Lit (lit "profit"))))
           (Seq (Lit (lit "sell")) (Seq s_star
              (Seq (Lit (lit "when")) (Seq s_star (Lit (lit "up")))))))
    (Seq s_star (Seq (Opt (Seq (Lit (lit "at")) s_star))
       (Seq number1 (Chr "%")))).

Definition has (input : str) (s : string) : bool := includes input (lit s).

Definition extractAsset (input : str) : str :=
  if has input "sol" then lit "SOL/USDC"
  else if has input "btc" || has input "bitcoin" then lit "BTC/USD"
  else if has input "eth" || has input "ethereum" then lit "ETH/USD"
  else lit "SOL/USDC".

(** [a || b] on match results: the first that is not null. *)
Definition orElse {A} (a b : option A) : option A :=
  match a with Some _ => a | None => b end.

Definition defaultCondition (phase : Phase) : StrategyCondition :=
  {| type := CtPrice; indicator := None;
     condition := match phase with Entry => CLt | Exit => CGt end;
     value := ofZ 100; timeframe := Some Tf15m |}.

Definition bollingerOrDefault (input : str) (phase : Phase) : StrategyCondition :=
  if has input "bollinger" || has input "bb" then
    {| type := CtIndicator; indicator := Some BB;
       condition := if has input "upper" then CGt else CLt;
       value := if has input "upper" then ofZ 2 else ofZ (-2);
       timeframe := Some Tf1h |}
  else defaultCondition phase.

Definition macdOrLater (input : str) (phase : Phase) : StrategyCondition :=
  if has input "macd" then
    {| type := CtIndicator; indicator := Some MACD;
       condition := CrossesAbove; value := ofZ 0; timeframe := Some Tf1h |}
  else bollingerOrDefault input phase.

Definition priceOrLater (input : str) (phase : Phase) : StrategyCondition :=
  if has input "price" || has input "drops" || has input "rises" then
    match match_ false re_percent input with
    | Some g =>
        {| type := CtPrice; indicator := None;
           condition := if has input "drop" || has input "below" then CLt else CGt;
           value := parseInt g; timeframe := Some Tf15m |}
    | None => macdOrLater input phase
    end
  else macdOrLater input phase.

Definition extractCondition (input : str) (phase : Phase) : StrategyCondition :=
  if has input "rsi" then
    let rsiMatch :=
      orElse (match_ true re_rsi_below input)
        (orElse (match_ true re_rsi_above input)
                (match_ true re_rsi_crosses input)) in
    match rsiMatch with
    | Some g =>
        {| type := CtIndicator; indicator := Some RSI;
           condition :=
             if has input "below" || has input "<" then CLt
             else if has input "above" || has input ">" then CGt
             else if has input "crosses" then CrossesAbove else CGt;
           value := parseInt g; timeframe := Some Tf15m |}
    | None => priceOrLater input phase
    end
  else priceOrLater input phase.

Definition extractMaxPosition (input : str) : num :=
  match match_ false re_dollars input with
  | Some (Some g) => parseFloat (removeAll "," g)
  | Some None => NaN
  | None => ofZ 500
  end.

Definition extractRiskPercent (input : str) : num :=
  match match_ true re_risk input with
  | Some g => parseInt g
  | None => ofZ 10
  end.

Definition extractStopLoss (input : str) : option num :=
  match match_ true re_stop_loss input with
  | Some g => Some (parseInt g)
  | None => None
  end.

Definition extractTakeProfit (input : str) : option num :=
  match match_ true re_take_profit input with
  | Some g => Some (parseInt g)
  | None => None
  end.

Definition generateStrategyName (input : str) : str :=
  let asset := extractAsset (toLowerCase input) in
  let assetSymbol := splitHead "/" asset in
  let low := toLowerCase input in
  if has low "rsi" then assetSymbol ++ lit " RSI Strategy"
  else if has low "macd" then assetSymbol ++ lit " MACD Strategy"
  else if has low "bollinger" then assetSymbol ++ lit " BB Strategy"
  else if has low "dca" || has low "dollar cost" then assetSymbol ++ lit " DCA Strategy"
  else assetSymbol ++ lit " Custom Strategy".

Definition parseStrategy (input : str) : ParsedStrategy :=
  let normalized := toLowerCase input in
  let asset := extractAsset normalized in
  let entry := extractCondition normalized Entry in
  let exit := extractCondition normalized Exit in
  let maxPosition := extractMaxPosition normalized in
  let riskPercent := extractRiskPercent normalized in
  let stopLoss := extractStopLoss normalized in
  let takeProfit := extractTakeProfit normalized in
  let executionType := if has normalized "limit" then Limit else Market in
  {| name := generateStrategyName input;
     asset := asset; entry := entry; exit := exit;
     maxPosition := maxPosition; riskPercent := riskPercent;
     executionType := executionType;
     stopLoss := stopLoss; takeProfit := takeProfit |}.

End StrategyParser.

(** ** Arrays *)

Module Arr.

(** [a[i]]: [undefined] out of range. *)
Definition aget (a : list num) (i : Z) : num :=
  if i <? 0 then Undefined
  else match a !! Z.to_nat i with
       | Some x => x
       | None => Undefined
       end.

(** The index that [slice] derives from an argument: negative arguments
    count from the end, and the result is clamped to [0, len]. *)
Definition relIndex (len : nat) (i : Z) : nat :=
  if i <? 0 then Z.to_nat (Z.max (Z.of_nat len + i) 0)
  else Z.to_nat (Z.min i (Z.of_nat len)).

(** [a.slice(start, end)] *)
Definition slice {A} (a : list A) (start end_ : Z) : list A :=
  let k := relIndex (length a) start in
  let final := relIndex (length a) end_ in
  take (final - k) (drop k a).

(** [a.slice(start)] *)
Definition sliceFrom {A} (a : list A) (start : Z) : list A :=
  slice a start (Z.of_nat (length a)).

(** [a.reduce((x, y) => x + y, 0)] *)
Definition sum (a : list num) : num := fold_left add a (ofZ 0).

(** The indices visited by [for (let i = lo; i < hi; i++)]. *)
Definition range (lo hi : nat) : list nat := seq lo (hi - lo).

End Arr.

Import Arr.

(** ** IndicatorCalculator *)

Module IndicatorCalculator.

(** One turn of the loop of calculateRSI, at index [i] of [recent]. *)
Definition rsiStep (recent : list num) (acc : num * num) (i : nat) : num * num :=
  let '(gains, losses) := acc in
  let change := (aget recent (Z.of_nat i) - aget recent (Z.of_nat i - 1))%num in
  if (change >? 0)%num then ((gains + change)%num, losses)
  else (gains, (losses + abs change)%num).

Definition rsiSums (prices : list num) (period : nat) : num * num :=
  let recentPrices := sliceFrom prices (- Z.of_nat period - 1) in
  fold_left (rsiStep recentPrices) (range 1 (length recentPrices)) (ofZ 0, ofZ 0).

Definition rsiAvgGain (prices : list num) (period : nat) : num :=
  (fst (rsiSums prices period) / ofNat period)%num.
Definition rsiAvgLoss (prices : list num) (period : nat) : num :=
  (snd (rsiSums prices period) / ofNat period)%num.

Definition calculateRSI (prices : list num) (period : nat) : num :=
  if (length prices <? period + 1)%nat then ofZ 50
  else
    let avgGain := rsiAvgGain prices period in
    let avgLoss := rsiAvgLoss prices period in
    if (avgLoss === 0)%num then ofZ 100
    else
      let rs := (avgGain / avgLoss)%num in
      let rsi := (100 - 100 / (1 + rs))%num in
      (round (rsi * 100) / 100)%num.

Definition calculateSMA (prices : list num) (period : nat) : num :=
  if (length prices <? period)%nat
  then aget prices (Z.of_nat (length prices) - 1)
  else
    let recentPrices := sliceFrom prices (- Z.of_nat period) in
    (sum recentPrices / ofNat period)%num.

Definition calculateEMA (prices : list num) (period : nat) : num :=
  if (length prices <? period)%nat
  then aget prices (Z.of_nat (length prices) - 1)
  else
    let multiplier := (2 / (ofNat period + 1))%num in
    fold_left
      (fun ema i => ((aget prices (Z.of_nat i) - ema) * multiplier + ema)%num)
      (range period (length prices))
      (calculateSMA (slice prices 0 (Z.of_nat period)) period).

Record MACDResult := { macd : num; signal : num; histogram : num }.

Definition calculateMACD (prices : list num) : MACDResult :=
  let ema12 := calculateEMA prices 12 in
  let ema26 := calculateEMA prices 26 in
  let macd := (ema12 - ema26)%num in
  let signal := (macd * ofQ (9 # 10))%num in
  let histogram := (macd - signal)%num in
  {| macd := macd; signal := signal; histogram := histogram |}.

Record Bands := { upper : num; middle : num; lower : num }.

(** Math.pow(x, 2) *)
Definition sq (x : num) : num := (x * x)%num.

Section WithSqrt.
(** Math.sqrt has no exact rational model; the functions that call it
    take it as a parameter. *)
Variable Math_sqrt : num -> num.

Definition calculateBollingerBands (prices : list num) (period : nat)
    (stdDev : num) : Bands :=
  let sma := calculateSMA prices period in
  let recentPrices := sliceFrom prices (- Z.of_nat period) in
  let squaredDiffs := map (fun p => sq (p - sma)%num) recentPrices in
  let variance := (sum squaredDiffs / ofNat period)%num in
  let sd := Math_sqrt variance in
  {| upper := (sma + sd * stdDev)%num;
     middle := sma;
     lower := (sma - sd * stdDev)%num |}.
End WithSqrt.

End IndicatorCalculator.

(** ** StrategyExecutor *)

Module StrategyExecutor.
Import IndicatorCalculator.

Section WithSqrt.
Variable Math_sqrt : num -> num.

Definition checkCondition (c : StrategyCondition) (currentPrice : num)
    (priceHistory : list num) : bool :=
  match type c with
  | CtPrice =>
      let prev := aget priceHistory (Z.of_nat (length priceHistory) - 2) in
      let change := ((currentPrice - prev) / prev * 100)%num in
      match condition c with
      | CLt => (change <? - value c)%num
      | CGt => (change >? value c)%num
      | _ => false
      end
  | CtIndicator =>
      match indicator c with
      | Some RSI =>
          let rsi := calculateRSI priceHistory 14 in
          match condition c with
          | CLt => (rsi <? value c)%num
          | CGt => (rsi >? value c)%num
          | CrossesAbove =>
              let prevRSI := calculateRSI (slice priceHistory 0 (-1)) 14 in
              (prevRSI <? value c)%num && (rsi >? value c)%num
          | CrossesBelow =>
              let prevRSI2 := calculateRSI (slice priceHistory 0 (-1)) 14 in
              (prevRSI2 >? value c)%num && (rsi <? value c)%num
          | CEq => false
          end
      | Some MACD =>
          let m := calculateMACD priceHistory in
          (histogram m >? 0)%num
      | Some BB =>
          let bb := calculateBollingerBands Math_sqrt priceHistory 20 (ofZ 2) in
          if (value c >? 0)%num then (currentPrice >? upper bb)%num
          else (currentPrice <? lower bb)%num
      | _ => false
      end
  | _ => false
  end.
End WithSqrt.

(** The field [priceHistory]: a Map from asset to its array of prices.
    The arrays are owned by the map and never shared between keys. *)
Abbreviation histories := (gmap str (list num)).

Definition updatePriceHistory (st : histories) (asset : str) (price : num)
  : histories :=
  let st1 := match st !! asset with
             | Some _ => st
             | None => <[asset := []]> st
             end in
  let history := default [] (st1 !! asset) in
  let pushed := history ++ [price] in
  let kept := if (200 <? length pushed)%nat then drop 1 pushed else pushed in
  <[asset := kept]> st1.

Definition getPriceHistory (st : histories) (asset : str) : list num :=
  default [] (st !! asset).

(** The state after a sequence of calls of updatePriceHistory, from the
    empty map of a new executor. *)
Definition runUpdates (calls : list (str * num)) : histories :=
  fold_left (fun st call => updatePriceHistory st (fst call) (snd call)) calls ∅.

End StrategyExecutor.

(** ** PnLTracker *)

Inductive Side := Buy | Sell.
Inductive TradeStatus := Pending | Executed | Failed.

Record Trade := {
  id : str;
  strategy : str;
  timestamp : num;
  side : Side;                 (* the field [type] *)
  tradeAsset : str;            (* the field [asset] *)
  price : num;
  amount : num;
  tradeValue : num;            (* the field [value] *)
  txSignature : option str;
  status : TradeStatus
}.

Record StrategyPerformance := {
  strategyName : str;
  totalTrades : num;
  winRate : num;
  totalPnL : num;
  totalPnLPercent : num;
  averageTrade : num;
  maxDrawdown : num;
  sharpeRatio : num
}.

Module PnLTracker.

(** The field [trades]: a Map from strategy name to its ledger. *)
Abbreviation ledgers := (gmap str (list Trade)).

Definition recordTrade (st : ledgers) (trade : Trade) : ledgers :=
  let st1 := match st !! strategy trade with
             | Some _ => st
             | None => <[strategy trade := []]> st
             end in
  <[strategy trade := default [] (st1 !! strategy trade) ++ [trade]]> st1.

Definition getTrades (st : ledgers) (strategyName : str) : list Trade :=
  default [] (st !! strategyName).

(** The variables [totalPnL], [wins] and [tradePnLs] of the pairing loop. *)
Record PairAcc := { accPnL : num; accWins : nat; accPnLs : list num }.

Definition isBuy (t : Trade) : bool :=
  match side t with Buy => true | Sell => false end.
Definition isSell (t : Trade) : bool :=
  match side t with Sell => true | Buy => false end.

(** [for (let i = 0; i < trades.length; i += 2)], started at [i]; every
    turn advances [i] by two, so [fuel] turns with [fuel >= length] reach
    the end.  Both reads are in range when they happen. *)
Fixpoint pairLoop (fuel : nat) (trades : list Trade) (i : nat) (acc : PairAcc)
  : PairAcc :=
  match fuel with
  | O => acc
  | S fuel' =>
      if (i <? length trades)%nat then
        if (length trades <=? i + 1)%nat then acc   (* break *)
        else
          match trades !! i, trades !! (i + 1)%nat with
          | Some buy, Some sell =>
              if isBuy buy && isSell sell then
                let pnl := ((price sell - price buy) * amount buy)%num in
                pairLoop fuel' trades (i + 2)
                  {| accPnL := (accPnL acc + pnl)%num;
                     accWins := if (pnl >? 0)%num then S (accWins acc)
                                else accWins acc;
                     accPnLs := accPnLs acc ++ [pnl] |}
              else pairLoop fuel' trades (i + 2) acc
          | _, _ => acc
          end
      else acc
  end.

(** One turn of the drawdown loop; the state is
    [(maxDrawdown, peak, cumulative)]. *)
Definition drawdownStep (st : num * num * num) (pnl : num) : num * num * num :=
  let '(maxDrawdown, peak, cumulative) := st in
  let cumulative := (cumulative + pnl)%num in
  let peak := if (cumulative >? peak)%num then cumulative else peak in
  let drawdown := ((peak - cumulative) / Num.max peak 1 * 100)%num in
  let maxDrawdown := if (drawdown >? maxDrawdown)%num then drawdown
                     else maxDrawdown in
  (maxDrawdown, peak, cumulative).

(** [x || d] on numbers: [d] when [x] is 0, NaN or undefined. *)
Definition orNum (x d : num) : num :=
  match x with
  | Fin q => if Qc_eqb q zeroQc then d else x
  | PInf | NInf => x
  | NaN | Undefined => d
  end.

Section WithSqrt.
Variable Math_sqrt : num -> num.

Definition calculateStdDev (values : list num) : num :=
  let mean := (sum values / ofNat (length values))%num in
  let squaredDiffs := map (fun v => IndicatorCalculator.sq (v - mean)%num) values in
  let variance := (sum squaredDiffs / ofNat (length values))%num in
  Math_sqrt variance.

Definition performanceOf (strategyName : str) (trades : list Trade)
  : StrategyPerformance :=
  if (length trades =? 0)%nat then
    {| strategyName := strategyName; totalTrades := 0; winRate := 0;
       totalPnL := 0; totalPnLPercent := 0; averageTrade := 0;
       maxDrawdown := 0; sharpeRatio := 0 |}
  else
    let acc := pairLoop (length trades) trades 0
                 {| accPnL := 0; accWins := 0; accPnLs := [] |} in
    let totalPnL := accPnL acc in
    let wins := accWins acc in
    let tradePnLs := accPnLs acc in
    let completedTrades := floor (ofNat (length trades) / 2)%num in
    let winRate := if (completedTrades >? 0)%num
                   then (ofNat wins / completedTrades * 100)%num else ofZ 0 in
    let averageTrade := if (completedTrades >? 0)%num
                        then (totalPnL / completedTrades)%num else ofZ 0 in
    let '(maxDrawdown, _, _) :=
      fold_left drawdownStep tradePnLs (ofZ 0, ofZ 0, ofZ 0) in
    let avgReturn := averageTrade in
    let returns := tradePnLs in
    let stdDev := if (0 <? length returns)%nat then calculateStdDev returns
                  else ofZ 1 in
    let sharpeRatio := if (stdDev >? 0)%num then (avgReturn / stdDev)%num
                       else ofZ 0 in
    {| strategyName := strategyName;
       totalTrades := ofNat (length trades);
       winRate := winRate;
       totalPnL := totalPnL;
       totalPnLPercent :=
         (totalPnL /
            orNum (match trades !! 0%nat with
                   | Some t => tradeValue t
                   | None => Undefined
                   end) 1 * 100)%num;
       averageTrade := averageTrade;
       maxDrawdown := maxDrawdown;
       sharpeRatio := sharpeRatio |}.

Definition calculatePerformance (st : ledgers) (strategyName : str)
  : StrategyPerformance :=
  performanceOf strategyName (default [] (st !! strategyName)).
End WithSqrt.

End PnLTracker.

(** ** The numeric code over binary64

    The functions of IndicatorCalculator, StrategyExecutor.checkCondition
    and the performance report of PnLTracker once more, each operation
    rounded as the source rounds it.  Counts (array lengths, periods) are
    integers; Math.round, Math.floor, Math.abs, Math.max and negation are
    exact on doubles; Math.pow(x, 2) is taken as the rounded product. *)

Module Double.

(** [a.reduce((x, y) => x + y, 0)] *)
Definition sum (a : list num) : num := fold_left F64.add a (ofZ 0).

(** One turn of the loop of calculateRSI, at index [i] of [recent]. *)
Definition rsiStep (recent : list num) (acc : num * num) (i : nat) : num * num :=
  let '(gains, losses) := acc in
  let change := (aget recent (Z.of_nat i) - aget recent (Z.of_nat i - 1))%f64 in
  if (change >? 0)%f64 then ((gains + change)%f64, losses)
  else (gains, (losses + abs change)%f64).

Definition rsiSums (prices : list num) (period : nat) : num * num :=
  let recentPrices := sliceFrom prices (- Z.of_nat period - 1) in
  fold_left (rsiStep recentPrices) (range 1 (length recentPrices)) (ofZ 0, ofZ 0).

Definition rsiAvgGain (prices : list num) (period : nat) : num :=
  (fst (rsiSums prices period) / ofNat period)%f64.
Definition rsiAvgLoss (prices : list num) (period : nat) : num :=
  (snd (rsiSums prices period) / ofNat period)%f64.

Definition calculateRSI (prices : list num) (period : nat) : num :=
  if (length prices <? period + 1)%nat then ofZ 50
  else
    let avgGain := rsiAvgGain prices period in
    let avgLoss := rsiAvgLoss prices period in
    if (avgLoss === 0)%f64 then ofZ 100
    else
      let rs := (avgGain / avgLoss)%f64 in
      let rsi := (100 - 100 / (1 + rs))%f64 in
      (round (rsi * 100)%f64 / 100)%f64.

Definition calculateSMA (prices : list num) (period : nat) : num :=
  if (length prices <? period)%nat
  then aget prices (Z.of_nat (length prices) - 1)
  else
    let recentPrices := sliceFrom prices (- Z.of_nat period) in
    (sum recentPrices / ofNat period)%f64.

Definition calculateEMA (prices : list num) (period : nat) : num :=
  if (length prices <? period)%nat
  then aget prices (Z.of_nat (length prices) - 1)
  else
    let multiplier := (2 / (ofNat period + 1))%f64 in
    fold_left
      (fun ema i => ((aget prices (Z.of_nat i) - ema) * multiplier + ema)%f64)
      (range period (length prices))
      (calculateSMA (slice prices 0 (Z.of_nat period)) period).

Definition calculateMACD (prices : list num) : IndicatorCalculator.MACDResult :=
  let ema12 := calculateEMA prices 12 in
  let ema26 := calculateEMA prices 26 in
  let macd := (ema12 - ema26)%f64 in
  let signal := (macd * F64.ofQ (9 # 10))%f64 in
  let histogram := (macd - signal)%f64 in
  {| IndicatorCalculator.macd := macd;
     IndicatorCalculator.signal := signal;
     IndicatorCalculator.histogram := histogram |}.

(** Math.pow(x, 2) *)
Definition sq (x : num) : num := (x * x)%f64.

Section WithSqrt.
Variable Math_sqrt : num -> num.

Definition calculateBollingerBands (prices : list num) (period : nat)
    (stdDev : num) : IndicatorCalculator.Bands :=
  let sma := calculateSMA prices period in
  let recentPrices := sliceFrom prices (- Z.of_nat period) in
  let squaredDiffs := map (fun p => sq (p - sma)%f64) recentPrices in
  let variance := (sum squaredDiffs / ofNat period)%f64 in
  let sd := Math_sqrt variance in
  {| IndicatorCalculator.upper := (sma + sd * stdDev)%f64;
     IndicatorCalculator.middle := sma;
     IndicatorCalculator.lower := (sma - sd * stdDev)%f64 |}.

Definition checkCondition (c : StrategyCondition) (currentPrice : num)
    (priceHistory : list num) : bool :=
  match type c with
  | CtPrice =>
      let prev := aget priceHistory (Z.of_nat (length priceHistory) - 2) in
      let change := ((currentPrice - prev) / prev * 100)%f64 in
      match condition c with
      | CLt => (change <? - value c)%f64
      | CGt => (change >? value c)%f64
      | _ => false
      end
  | CtIndicator =>
      match indicator c with
      | Some RSI =>
          let rsi := calculateRSI priceHistory 14 in
          match condition c with
          | CLt => (rsi <? value c)%f64
          | CGt => (rsi >? value c)%f64
          | CrossesAbove =>
              let prevRSI := calculateRSI (slice priceHistory 0 (-1)) 14 in
              (prevRSI <? value c)%f64 && (rsi >? value c)%f64
          | CrossesBelow =>
              let prevRSI2 := calculateRSI (slice priceHistory 0 (-1)) 14 in
              (prevRSI2 >? value c)%f64 && (rsi <? value c)%f64
          | CEq => false
          end
      | Some MACD =>
          let m := calculateMACD priceHistory in
          (IndicatorCalculator.histogram m >? 0)%f64
      | Some BB =>
          let bb := calculateBollingerBands priceHistory 20 (ofZ 2) in
          if (value c >? 0)%f64 then (currentPrice >? IndicatorCalculator.upper bb)%f64
          else (currentPrice <? IndicatorCalculator.lower bb)%f64
      | _ => false
      end
  | _ => false
  end.
End WithSqrt.

(** [for (let i = 0; i < trades.length; i += 2)], started at [i]; every
    turn advances [i] by two, so [fuel] turns with [fuel >= length] reach
    the end. *)
Fixpoint pairLoop (fuel : nat) (trades : list Trade) (i : nat)
    (acc : PnLTracker.PairAcc) : PnLTracker.PairAcc :=
  match fuel with
  | O => acc
  | S fuel' =>
      if (i <? length trades)%nat then
        if (length trades <=? i + 1)%nat then acc   (* break *)
        else
          match trades !! i, trades !! (i + 1)%nat with
          | Some buy, Some sell =>
              if PnLTracker.isBuy buy && PnLTracker.isSell sell then
                let pnl := ((price sell - price buy) * amount buy)%f64 in
                pairLoop fuel' trades (i + 2)
                  {| PnLTracker.accPnL := (PnLTracker.accPnL acc + pnl)%f64;
                     PnLTracker.accWins :=
                       if (pnl >? 0)%f64 then S (PnLTracker.accWins acc)
                       else PnLTracker.accWins acc;
                     PnLTracker.accPnLs := PnLTracker.accPnLs acc ++ [pnl] |}
              else pairLoop fuel' trades (i + 2) acc
          | _, _ => acc
          end
      else acc
  end.

(** One turn of the drawdown loop; the state is
    [(maxDrawdown, peak, cumulative)]. *)
Definition drawdownStep (st : num * num * num) (pnl : num) : num * num * num :=
  let '(maxDrawdown, peak, cumulative) := st in
  let cumulative := (cumulative + pnl)%f64 in
  let peak := if (cumulative >? peak)%f64 then cumulative else peak in
  let drawdown := ((peak - cumulative) / Num.max peak 1 * 100)%f64 in
  let maxDrawdown := if (drawdown >? maxDrawdown)%f64 then drawdown
                     else maxDrawdown in
  (maxDrawdown, peak, cumulative).

Section WithSqrt.
Variable Math_sqrt : num -> num.

Definition calculateStdDev (values : list num) : num :=
  let mean := (sum values / ofNat (length values))%f64 in
  let squaredDiffs := map (fun v => sq (v - mean)%f64) values in
  let variance := (sum squaredDiffs / ofNat (length values))%f64 in
  Math_sqrt variance.

Definition performanceOf (strategyName : str) (trades : list Trade)
  : StrategyPerformance :=
  if (length trades =? 0)%nat then
    {| strategyName := strategyName; totalTrades := 0; winRate := 0;
       totalPnL := 0; totalPnLPercent := 0; averageTrade := 0;
       maxDrawdown := 0; sharpeRatio := 0 |}
  else
    let acc := pairLoop (length trades) trades 0
                 {| PnLTracker.accPnL := 0; PnLTracker.accWins := 0;
                    PnLTracker.accPnLs := [] |} in
    let totalPnL := PnLTracker.accPnL acc in
    let wins := PnLTracker.accWins acc in
    let tradePnLs := PnLTracker.accPnLs acc in
    let completedTrades := floor (ofNat (length trades) / 2)%f64 in
    let winRate := if (completedTrades >? 0)%f64
                   then (ofNat wins / completedTrades * 100)%f64 else ofZ 0 in
    let averageTrade := if (completedTrades >? 0)%f64
                        then (totalPnL / completedTrades)%f64 else ofZ 0 in
    let '(maxDrawdown, _, _) :=
      fold_left drawdownStep tradePnLs (ofZ 0, ofZ 0, ofZ 0) in
    let avgReturn := averageTrade in
    let returns := tradePnLs in
    let stdDev := if (0 <? length returns)%nat then calculateStdDev returns
                  else ofZ 1 in
    let sharpeRatio := if (stdDev >? 0)%f64 then (avgReturn / stdDev)%f64
                       else ofZ 0 in
    {| strategyName := strategyName;
       totalTrades := ofNat (length trades);
       winRate := winRate;
       totalPnL := totalPnL;
       totalPnLPercent :=
         (totalPnL /
            PnLTracker.orNum (match trades !! 0%nat with
                              | Some t => tradeValue t
                              | None => Undefined
                              end) 1 * 100)%f64;
       averageTrade := averageTrade;
       maxDrawdown := maxDrawdown;
       sharpeRatio := sharpeRatio |}.

Definition calculatePerformance (st : PnLTracker.ledgers) (strategyName : str)
  : StrategyPerformance :=
  performanceOf strategyName (default [] (st !! strategyName)).
End WithSqrt.

End Double.

(** ** Yield aggregation and rebalancing *)

Inductive Protocol := Jupiter | Kamino | Marinade | Raydium.
Inductive Risk := Low | Medium | High.
Inductive RiskTolerance := Conservative | Balanced | Aggressive.

Record ProtocolYield := {
  protocol : Protocol;
  pool : str;
  apy : num;
  tvl : num;
  risk : Risk;
  token : str;
  address : str
}.

(** The fields [protocol] (a plain string here), [pool], [amount],
    [value] and [apy] of a position. *)
Record Position := {
  posProtocol : str;
  posPool : str;
  posAmount : num;
  posValue : num;
  posApy : num
}.

(** The field [reasoning], a sentence built with toFixed from the binary
    expansion of the doubles, is display text and is left out. *)
Record RebalanceRecommendation := {
  from : Position;
  to : ProtocolYield;
  recAmount : num;
  expectedGain : num
}.

Definition protocolName (p : Protocol) : str :=
  match p with
  | Jupiter => lit "Jupiter"
  | Kamino => lit "Kamino"
  | Marinade => lit "Marinade"
  | Raydium => lit "Raydium"
  end.

Definition str_eqb (a b : str) : bool := bool_decide (a = b).

Definition risk_eqb (a b : Risk) : bool :=
  match a, b with
  | Low, Low | Medium, Medium | High, High => true
  | _, _ => false
  end.

Module YieldAggregator.

Definition mk (p : Protocol) (pl : string) (a : Q) (t : Z) (r : Risk)
    (tok addr : string) : ProtocolYield :=
  {| protocol := p; pool := lit pl; apy := ofQ a; tvl := ofZ t; risk := r;
     token := lit tok; address := lit addr |}.

Definition fetchJupiterYields : list ProtocolYield :=
  [ mk Jupiter "JLP Pool" (475 # 10) 285000000 Medium "JLP"
       "JLP9i4FzxhwzSeLPaLLxzYrYxQPFHGCPWz2Y2fRQ1vW4";
    mk Jupiter "SOL-USDC Swap Pool" (123 # 10) 145000000 Low "SOL-USDC"
       "Jupiter3dWmvG7Ly5qnqAyxAiYvk4YQ4uxxKDYKDvqHqhp52" ].

Definition fetchKaminoYields : list ProtocolYield :=
  [ mk Kamino "SOL Multiply" (892 # 10) 78000000 High "SOL"
       "Kamino8ZPxZ7vT3p2fU4WYDhNKmLPqKJVqx9dPYFh3qR";
    mk Kamino "USDC Lend" (187 # 10) 156000000 Low "USDC"
       "Kamino9KBPUhzYnpGZcJH4gYX8p6fU7WYDh8GvLPqK";
    mk Kamino "JitoSOL Multiply" (674 # 10) 45000000 Medium "JitoSOL"
       "KaminoJitoSoLMPqGdg7K2XqyVbw4hY8p5fU7Wh" ].

Definition fetchMarinadeYields : list ProtocolYield :=
  [ mk Marinade "mSOL Stake Pool" (78 # 10) 1200000000 Low "mSOL"
       "MarBmsSgKXdrN1egZf5sqe1TMai9K1rChYNDJgjq7aD" ].

Definition fetchRaydiumYields : list ProtocolYield :=
  [ mk Raydium "SOL-USDC" (234 # 10) 234000000 Medium "RAY-LP"
       "RaydiumSoLUSdCpQP5fU7WYDhGvLPqKJVqx9dPYF";
    mk Raydium "RAY-SOL" (456 # 10) 89000000 Medium "RAY-LP"
       "RaydiumRAYSoLQP7fU8WYDhNKmLPqKJVqx9dP";
    mk Raydium "USDC-USDT" (52 # 10) 567000000 Low "RAY-LP"
       "RaydiumUSDCUSDTqKJVqx9dPYFh3qR8GvLPqK" ].

Definition getAllYields : list ProtocolYield :=
  fetchJupiterYields ++ fetchKaminoYields ++ fetchMarinadeYields
    ++ fetchRaydiumYields.

End YieldAggregator.

Module RebalancingEngine.

Definition riskMap (r : Risk) : num :=
  match r with Low => 20 | Medium => 50 | High => 80 end.

Definition calculateRiskScore (y : ProtocolYield) : num :=
  let baseRisk := riskMap (risk y) in
  let tvlFactor := Num.max 0 (20 - tvl y / 10000000)%num in
  let apyFactor := if (apy y >? 100)%num then ofZ 15 else ofZ 0 in
  Num.min 100 (baseRisk + tvlFactor + apyFactor)%num.

Definition calculateRiskAdjustedReturn (y : ProtocolYield) : num :=
  let riskScore := calculateRiskScore y in
  (apy y / (1 + riskScore / 100))%num.

Definition targetRisks (t : RiskTolerance) : list Risk :=
  match t with
  | Conservative => [Low]
  | Balanced => [Low; Medium]
  | Aggressive => [Low; Medium; High]
  end.

(** Array.prototype.sort with a comparator: [cmp a b > 0] puts [b] before
    [a], and elements that compare equal keep their order.  For a
    consistent comparator that order is unique; it is computed here by
    insertion. *)
Section Sort.
Context {A : Type} (cmp : A -> A -> num).

Fixpoint insertSorted (x : A) (l : list A) : list A :=
  match l with
  | [] => [x]
  | y :: l' =>
      if (cmp y x >? 0)%num then x :: y :: l'
      else y :: insertSorted x l'
  end.

Definition sortBy (l : list A) : list A :=
  fold_left (fun acc x => insertSorted x acc) l [].
End Sort.

(** [rankedYields.find]-style scan of the inner loop: the first target
    that improves the APY by more than 5 on another protocol. *)
Fixpoint firstBetter (position : Position) (ranked : list ProtocolYield)
  : option RebalanceRecommendation :=
  match ranked with
  | [] => None
  | targetYield :: rest =>
      let apyDiff := (apy targetYield - posApy position)%num in
      if (apyDiff >? 5)%num
         && negb (str_eqb (protocolName (protocol targetYield))
                          (posProtocol position))
      then Some {| from := position; to := targetYield;
                   recAmount := (posAmount position * ofQ (1 # 2))%num;
                   expectedGain := (posValue position * apyDiff / 100)%num |}
      else firstBetter position rest
  end.

Definition analyzeWith (allYields : list ProtocolYield)
    (positions : list Position) (riskTolerance : RiskTolerance)
  : list RebalanceRecommendation :=
  let eligibleYields :=
    filter (fun y => existsb (risk_eqb (risk y)) (targetRisks riskTolerance) = true)
           allYields in
  let rankedYields :=
    sortBy (fun a b => (calculateRiskAdjustedReturn b
                        - calculateRiskAdjustedReturn a)%num) eligibleYields in
  fold_left
    (fun recommendations position =>
       let currentYield :=
         find (fun y => str_eqb (protocolName (protocol y)) (posProtocol position)
                        && str_eqb (pool y) (posPool position)) allYields in
       match currentYield with
       | None => recommendations                        (* continue *)
       | Some _ =>
           match firstBetter position rankedYields with
           | Some r => recommendations ++ [r]           (* push; break *)
           | None => recommendations
           end
       end)
    positions [].

Definition analyzePositions (positions : list Position)
    (riskTolerance : RiskTolerance) : list RebalanceRecommendation :=
  analyzeWith YieldAggregator.getAllYields positions riskTolerance.

End RebalancingEngine.

(** ** The other queries of YieldAggregator, portfolio allocation *)

Module YieldQueries.
Import RebalancingEngine.

(** The comparator [(a, b) => b.apy - a.apy]. *)
Definition byApyDesc (a b : ProtocolYield) : num := (apy b - apy a)%num.

(** getTopYields on the array [yields] that getAllYields returned;
    [limit] is a count. *)
Definition topYieldsOf (yields : list ProtocolYield) (limit : nat)
  : list ProtocolYield :=
  slice (sortBy byApyDesc yields) 0 (Z.of_nat limit).

Definition getTopYields (limit : nat) : list ProtocolYield :=
  topYieldsOf YieldAggregator.getAllYields limit.

Definition yieldsByRiskOf (yields : list ProtocolYield) (r : Risk)
  : list ProtocolYield :=
  filter (fun y => risk_eqb (risk y) r = true) yields.

Definition getYieldsByRisk (r : Risk) : list ProtocolYield :=
  yieldsByRiskOf YieldAggregator.getAllYields r.

(** An element of the array that generateOptimalAllocation returns: the
    fields [yield] and [allocation]. *)
Record Allocation := { allocYield : ProtocolYield; allocation : num }.

(** The weight tables, in the order Object.entries enumerates them. *)
Definition strategies (t : RiskTolerance) : list (Risk * num) :=
  match t with
  | Conservative =>
      [(Low, ofQ (80 # 100)); (Medium, ofQ (15 # 100)); (High, ofQ (5 # 100))]
  | Balanced =>
      [(Low, ofQ (40 # 100)); (Medium, ofQ (45 # 100)); (High, ofQ (15 # 100))]
  | Aggressive =>
      [(Low, ofQ (20 # 100)); (Medium, ofQ (40 # 100)); (High, ofQ (40 # 100))]
  end.

(** The top 3 yields of a risk category. *)
Definition riskYieldsOf (allYields : list ProtocolYield) (r : Risk)
  : list ProtocolYield :=
  slice (sortBy byApyDesc (yieldsByRiskOf allYields r)) 0 3.

(** One turn of the loop over the entries of the weight table. *)
Definition allocateStep (allYields : list ProtocolYield) (totalValue : num)
    (acc : list Allocation) (entry : Risk * num) : list Allocation :=
  let riskYields := riskYieldsOf allYields (fst entry) in
  let perYield := (snd entry / ofNat (length riskYields))%num in
  acc ++ map (fun y => {| allocYield := y;
                          allocation := (totalValue * perYield)%num |})
             riskYields.

Definition allocateWith (allYields : list ProtocolYield) (totalValue : num)
    (riskTolerance : RiskTolerance) : list Allocation :=
  fold_left (allocateStep allYields totalValue) (strategies riskTolerance) [].


End YieldQueries.

(** ** The strategy page: the callers of the executor and of the tracker

    [checkStrategyConditions] and [executeTrade] are closures of the page
    component; the state variable [trades] they read is an argument here,
    and so are the two readings of the clock. *)

Module StrategyPage.
Import StrategyExecutor PnLTracker.



Section WithSqrt.
Variable Math_sqrt : num -> num.

(** The calls of executeTrade that one call of checkStrategyConditions
    makes, in order. *)
Definition checkStrategyConditions (trades : list Trade)
    (strat : ParsedStrategy) (currentPrice : num) (history : list num)
  : list Side :=
  if (length history <? 20)%nat then []
  else
    let entryMet := checkCondition Math_sqrt (entry strat) currentPrice history in
    (if entryMet && (length trades =? 0)%nat then [Buy] else [])
    ++ (if (0 <? length trades)%nat
           && match last trades with
              | Some t => isBuy t
              | None => false
              end
        then if checkCondition Math_sqrt (exit strat) currentPrice history
             then [Sell] else []
        else []).

End WithSqrt.

End StrategyPage.

(** ** Definitions that follow the wording of the specification *)

Module Spec.
Import IndicatorCalculator.

(** A stand-in for Math.sqrt where a closed term is needed and the
    branch under study does not take a square root. *)
Definition no_sqrt (x : num) : num := NaN.

(** The example strategy of the user interface and of the README. *)
Definition example_input : str :=
  lit "Buy SOL when RSI drops below 30, sell when it crosses 70, max position $500".

(** "the percent change between the last two history samples" *)
Definition lastTwoChange (history : list num) : num :=
  let n := Z.of_nat (length history) in
  let lastSample := aget history (n - 1) in
  let previous := aget history (n - 2) in
  ((lastSample - previous) / previous * 100)%num.

(** The percent change from [previous] to [current]. *)
Definition percentChange (previous current : num) : num :=
  ((current - previous) / previous * 100)%num.

(** The condition of a strategy on prices, with operator [op]. *)
Definition priceCondition (op : Comparator) (v : num) (tf : option Timeframe)
  : StrategyCondition :=
  {| type := CtPrice; indicator := None; condition := op; value := v;
     timeframe := tf |}.

(** A count as a rational. *)
Definition natQc (n : nat) : Qc := Q2Qc (inject_Z (Z.of_nat n)).

(** "clamped to the interval [lo, hi]" *)
Definition clamp (lo hi x : num) : num := Num.max lo (Num.min hi x).

(** What the claim asks of a recommendation. *)
Definition wellFounded (r : RebalanceRecommendation) : Prop :=
  protocolName (protocol (to r)) <> posProtocol (from r)
  /\ (apy (to r) - posApy (from r) >? 5)%num = true
  /\ recAmount r = (posAmount (from r) * ofQ (1 # 2))%num.

(** The last [n] elements of a sequence, in order. *)
Definition lastN {A} (n : nat) (l : list A) : list A :=
  drop (length l - n) l.

(** The prices of the calls for [asset], in arrival order. *)
Definition pricesFor (asset : str) (calls : list (str * num)) : list num :=
  map snd (filter (fun call => fst call = asset) calls).

(** "pairs trades by index parity (indices 2i and 2i+1)"; a trailing
    unpaired trade is dropped. *)
Fixpoint indexPairs (trades : list Trade) : list (Trade * Trade) :=
  match trades with
  | a :: b :: rest => (a, b) :: indexPairs rest
  | _ => []
  end.

(** "literally (buy, sell) in that order" *)
Definition realized (p : Trade * Trade) : bool :=
  PnLTracker.isBuy (fst p) && PnLTracker.isSell (snd p).

(** "pnl = (sellPrice - buyPrice) * buyAmount" *)
Definition pairPnl (p : Trade * Trade) : num :=
  ((price (snd p) - price (fst p)) * amount (fst p))%num.

Definition pairPnls (trades : list Trade) : list num :=
  map pairPnl (filter (fun p => realized p = true) (indexPairs trades)).

(** "pairs with positive pnl" *)
Definition winningPairs (trades : list Trade) : nat :=
  length (filter (fun x => (x >? 0)%num = true) (pairPnls trades)).

(** [t] with the side, price and amount given. *)
Definition tradeWith (t : Trade) (sd : Side) (p a : num) : Trade :=
  {| id := id t; strategy := strategy t; timestamp := timestamp t;
     side := sd; tradeAsset := tradeAsset t; price := p; amount := a;
     tradeValue := tradeValue t; txSignature := txSignature t;
     status := status t |}.

(** One realized or skipped pair, as the pairing loop accounts for it. *)
Definition pairStep (acc : PnLTracker.PairAcc) (p : Trade * Trade)
  : PnLTracker.PairAcc :=
  if realized p then
    {| PnLTracker.accPnL := (PnLTracker.accPnL acc + pairPnl p)%num;
       PnLTracker.accWins := if (pairPnl p >? 0)%num
                             then S (PnLTracker.accWins acc)
                             else PnLTracker.accWins acc;
       PnLTracker.accPnLs := PnLTracker.accPnLs acc ++ [pairPnl p] |}
  else acc.

(** The differences between consecutive samples. *)
Fixpoint deltas (prices : list num) : list num :=
  match prices with
  | a :: (b :: _) as rest => (b - a)%num :: deltas rest
  | _ => []
  end.

(** The gains are the positive differences, the losses the sizes of the
    others. *)
Definition gainsOf (ds : list num) : list num :=
  filter (fun d => gtb d (ofZ 0) = true) ds.
Definition lossesOf (ds : list num) : list num :=
  map abs (filter (fun d => gtb d (ofZ 0) = false) ds).

(** "the average loss over the last period deltas", and the average gain *)
Definition avgLoss (prices : list num) (period : nat) : num :=
  (sum (lossesOf (lastN period (deltas prices))) / ofNat period)%num.
Definition avgGain (prices : list num) (period : nat) : num :=
  (sum (gainsOf (lastN period (deltas prices))) / ofNat period)%num.



(** The words a regular expression matches, captures aside. *)
Inductive matches (ci : bool) : regex -> str -> Prop :=
| M_Eps : matches ci Eps []
| M_Chr c x : chr_matches ci c x = true -> matches ci (Chr c) [x]
| M_Digit x : isDigit x = true -> matches ci Digit [x]
| M_Space x : isSpace x = true -> matches ci Space [x]
| M_Seq r1 r2 w1 w2 :
    matches ci r1 w1 -> matches ci r2 w2 -> matches ci (Seq r1 r2) (w1 ++ w2)
| M_AltL r1 r2 w : matches ci r1 w -> matches ci (Alt r1 r2) w
| M_AltR r1 r2 w : matches ci r2 w -> matches ci (Alt r1 r2) w
| M_StarNil r : matches ci (Star r) []
| M_StarCons r w1 w2 :
    matches ci r w1 -> matches ci (Star r) w2 -> matches ci (Star r) (w1 ++ w2)
| M_Group r w : matches ci r w -> matches ci (Group r) w.

(** A sufficient test that every word of an expression holds a digit. *)
Fixpoint needsDigit (r : regex) : bool :=
  match r with
  | Digit => true
  | Seq r1 r2 => needsDigit r1 || needsDigit r2
  | Alt r1 r2 => needsDigit r1 && needsDigit r2
  | Group r1 => needsDigit r1
  | _ => false
  end.

(** A text without any decimal digit. *)
Definition digitFree (s : str) : Prop := Forall (fun c => isDigit c = false) s.

(** [R] holds between every sample and the next. *)
Fixpoint adjacent (R : num -> num -> Prop) (l : list num) : Prop :=
  match l with
  | a :: (b :: _) as rest => R a b /\ adjacent R rest
  | _ => True
  end.

(** Prices that never fall, and prices that always fall. *)
Definition nondecreasing (l : list num) : Prop :=
  adjacent (fun a b => leb a b = true) l.
Definition decreasing (l : list num) : Prop :=
  adjacent (fun a b => ltb b a = true) l.


(** A condition on the indicator [ind]. *)
Definition indicatorCondition (ind : Indicator) (op : Comparator) (v : num)
    (tf : option Timeframe) : StrategyCondition :=
  {| type := CtIndicator; indicator := Some ind; condition := op; value := v;
     timeframe := tf |}.

(** The tracker after recording [trades], in order, on a new tracker. *)
Definition recordAll (trades : list Trade) : PnLTracker.ledgers :=
  fold_left PnLTracker.recordTrade trades ∅.


(** Descending order of APY, and of risk-adjusted return. *)
Definition apyGe (a b : ProtocolYield) : Prop := le (apy b) (apy a).
Definition rarGe (a b : ProtocolYield) : Prop :=
  le (RebalancingEngine.calculateRiskAdjustedReturn b)
     (RebalancingEngine.calculateRiskAdjustedReturn a).

(** The test of the inner loop of analyzePositions: an APY more than 5
    points above the position's, on another protocol. *)
Definition qualifies (position : Position) (y : ProtocolYield) : bool :=
  (apy y - posApy position >? 5)%num
  && negb (str_eqb (protocolName (protocol y)) (posProtocol position)).

(** The risk level of [y] is permitted by the tolerance. *)
Definition eligibleFor (t : RiskTolerance) (y : ProtocolYield) : bool :=
  existsb (risk_eqb (risk y)) (RebalancingEngine.targetRisks t).

(** The position is held in a pool of the table. *)
Definition held (allYields : list ProtocolYield) (position : Position) : bool :=
  existsb (fun y => str_eqb (protocolName (protocol y)) (posProtocol position)
                    && str_eqb (pool y) (posPool position)) allYields.

(** The positions for which analyzePositions has something to recommend. *)
Definition recommendable (allYields : list ProtocolYield) (t : RiskTolerance)
    (position : Position) : bool :=
  held allYields position
  && existsb (fun y => eligibleFor t y && qualifies position y) allYields.

(** The sum of the amounts of an allocation. *)
Definition totalAllocated (l : list YieldQueries.Allocation) : num :=
  sum (map YieldQueries.allocation l).

(** Descending order of a key. *)
Definition keyGe {A} (key : A -> num) (a b : A) : Prop := le (key b) (key a).

(** The value of a run of decimal digits. *)
Definition decimal (ds : str) : Z :=
  fold_left (fun acc c => 10 * acc + digitVal c) ds 0.

(** The text after a run of digits goes on with the number: a further
    digit, a comma and three digits, or a point and two digits. *)
Definition continuesNumber (rest : str) : bool :=
  match rest with
  | c :: more =>
      isDigit c
      || (ascii_eqb c "," &&
          match more with
          | d1 :: d2 :: d3 :: _ => isDigit d1 && isDigit d2 && isDigit d3
          | _ => false
          end)
      || (ascii_eqb c "." &&
          match more with
          | d1 :: d2 :: _ => isDigit d1 && isDigit d2
          | _ => false
          end)
  | [] => false
  end.

(** The captured group of the dollar pattern. *)
Definition amountBody : regex :=
  Seq (Plus Digit)
    (Seq (Star (Seq (Chr ",") (Times 3 Digit)))
         (Opt (Seq (Chr ".") (Times 2 Digit)))).

End Spec.

(** ** The same wording, for the code over binary64 *)

Module SpecDouble.
Import Spec.

(** "the percent change between the last two history samples", as the
    source computes a percent change. *)
Definition percentChange (previous current : num) : num :=
  ((current - previous) / previous * 100)%f64.

Definition lastTwoChange (history : list num) : num :=
  let n := Z.of_nat (length history) in
  percentChange (aget history (n - 2)) (aget history (n - 1)).

(** "pnl = (sellPrice - buyPrice) * buyAmount" *)
Definition pairPnl (p : Trade * Trade) : num :=
  ((price (snd p) - price (fst p)) * amount (fst p))%f64.

Definition pairPnls (trades : list Trade) : list num :=
  map pairPnl (filter (fun p => realized p = true) (indexPairs trades)).

(** "pairs with positive pnl" *)
Definition winningPairs (trades : list Trade) : nat :=
  length (filter (fun x => (x >? 0)%f64 = true) (pairPnls trades)).

(** One realized or skipped pair, as the pairing loop accounts for it. *)
Definition pairStep (acc : PnLTracker.PairAcc) (p : Trade * Trade)
  : PnLTracker.PairAcc :=
  if realized p then
    {| PnLTracker.accPnL := (PnLTracker.accPnL acc + pairPnl p)%f64;
       PnLTracker.accWins := if (pairPnl p >? 0)%f64
                             then S (PnLTracker.accWins acc)
                             else PnLTracker.accWins acc;
       PnLTracker.accPnLs := PnLTracker.accPnLs acc ++ [pairPnl p] |}
  else acc.

(** The differences between consecutive samples. *)
Fixpoint deltas (prices : list num) : list num :=
  match prices with
  | a :: (b :: _) as rest => (b - a)%f64 :: deltas rest
  | _ => []
  end.

(** "the average loss over the last period deltas", and the average gain *)
Definition avgLoss (prices : list num) (period : nat) : num :=
  (Double.sum (lossesOf (lastN period (deltas prices))) / ofNat period)%f64.
Definition avgGain (prices : list num) (period : nat) : num :=
  (Double.sum (gainsOf (lastN period (deltas prices))) / ofNat period)%f64.

(** "rounded to 2 decimal places", as the source rounds:
    [Math.round(x * 100) / 100]. *)
Definition round2 (x : num) : num := (round (x * 100)%f64 / 100)%f64.

(** Every multiple [j * c] with [1 <= j <= n] is a double. *)
Definition exactMultiples (c : Qc) (n : nat) : Prop :=
  forall j : nat, (1 <= j <= n)%nat ->
    F64.rnd (inject_Z (Z.of_nat j) * c) = Fin (Q2Qc (inject_Z (Z.of_nat j) * c)).

(** A number that is not negative: a finite one, or +Infinity. *)
Definition nonnegative (x : num) : Prop := leb 0 x = true.

End SpecDouble.

(** * Properties *)

Import IndicatorCalculator StrategyExecutor Spec.

(** ** Numbers *)

Example add_inf : (PInf + NInf)%num = NaN.
Proof. reflexivity. Qed.

Example div_zero : (5 / 0)%num = PInf /\ (0 / 0)%num = NaN.
Proof. split; reflexivity. Qed.

Lemma Qc_ltb_lt (a b : Qc) : Qc_ltb a b = true <-> (a < b)%Qc.
Proof.
  unfold Qc_ltb. rewrite Qclt_alt.
  destruct (Qccompare a b); split; congruence.
Qed.

Lemma Qc_eqb_eq (a b : Qc) : Qc_eqb a b = true <-> a = b.
Proof.
  unfold Qc_eqb. rewrite Qceq_alt.
  destruct (Qccompare a b); split; congruence.
Qed.

Lemma Qc_leb_le (a b : Qc) : Qc_leb a b = true <-> (a <= b)%Qc.
Proof.
  unfold Qc_leb. rewrite Qcle_alt.
  destruct (Qccompare a b); split; congruence.
Qed.

(** Two finite numbers are equal as soon as their rationals are. *)
Lemma Fin_ext (a b : Qc) : (this a == this b)%Q -> Fin a = Fin b.
Proof. intros H. f_equal. by apply Qc_is_canon. Qed.

Ltac num_compute :=
  vm_compute;
  repeat match goal with
         | |- _ /\ _ => split
         | |- Some _ = Some _ => f_equal
         | |- Fin _ = Fin _ => apply Fin_ext; reflexivity
         | |- _ => reflexivity
         end.

(** Arithmetic on [undefined] or [NaN] gives [NaN]. *)
Lemma sub_undefined_r (x : num) : (x - Undefined)%num = NaN.
Proof. by destruct x. Qed.

Lemma ltb_nan_l (x : num) : (NaN <? x)%num = false.
Proof. done. Qed.

Lemma ltb_nan_r (x : num) : (x <? NaN)%num = false.
Proof. by destruct x. Qed.

(** ** StrategyParser *)

(** C1.  On the example strategy of the documentation the parser returns
    the asset SOL/USDC, but none of its three RSI patterns matches
    "rsi drops below 30" (they allow only white space between "rsi" and
    the comparison word), so the entry condition is the default price
    condition [< 100] with no indicator; and the first number of the text,
    30, is taken as the maximum position, not the 500 after the dollar
    sign. *)
Theorem parseStrategy_example :
  let p := StrategyParser.parseStrategy example_input in
  asset p = lit "SOL/USDC"
  /\ type (entry p) = CtPrice
  /\ indicator (entry p) = None
  /\ condition (entry p) = CLt
  /\ value (entry p) = 100
  /\ maxPosition p = 30.
Proof. num_compute. Qed.

(** The patterns do match when the comparison word follows "rsi". *)
Example parseStrategy_rsi_adjacent :
  let p := StrategyParser.parseStrategy
             (lit "Buy SOL when RSI below 30, max position $500") in
  indicator (entry p) = Some RSI /\ condition (entry p) = CLt
  /\ value (entry p) = 30 /\ maxPosition p = 30.
Proof. num_compute. Qed.

Example parseStrategy_momentum :
  let p := StrategyParser.parseStrategy
             (lit "Buy BTC when price breaks above 24h high with volume spike, stop loss at 2%") in
  asset p = lit "BTC/USD" /\ type (entry p) = CtPrice
  /\ condition (entry p) = CGt /\ value (entry p) = 2
  /\ maxPosition p = 24 /\ stopLoss p = Some (ofZ 2)
  /\ takeProfit p = None /\ executionType p = Market
  /\ name p = lit "BTC Custom Strategy".
Proof. num_compute. Qed.

Example extractMaxPosition_examples :
  StrategyParser.extractMaxPosition (lit "max position $500") = 500
  /\ StrategyParser.extractMaxPosition (lit "up to $1,234.56 now")
     = F64.ofQ (123456 # 100)
  /\ StrategyParser.extractMaxPosition (lit "no figure") = 500.
Proof. num_compute. Qed.

(** ** checkCondition on prices *)




(** C10.  On a history of fewer than two samples the second-to-last
    sample is undefined, the change is NaN, and a price condition is
    false for every operator, value and current price. *)
Theorem checkCondition_price_short_history (Math_sqrt : num -> num)
    (c : StrategyCondition) (currentPrice : num) (history : list num) :
  type c = CtPrice ->
  (length history < 2)%nat ->
  checkCondition Math_sqrt c currentPrice history = false.
Proof.
  intros Hty Hlen. unfold checkCondition. rewrite Hty.
  assert (Hprev : aget history (Z.of_nat (length history) - 2) = Undefined).
  { unfold aget. destruct (Z.ltb_spec (Z.of_nat (length history) - 2) 0); [done | lia]. }
  rewrite Hprev, sub_undefined_r. cbn.
  destruct (condition c); try done.
  unfold gtb. apply ltb_nan_r.
Qed.

Lemma checkCondition_price_short_history_witness :
  checkCondition no_sqrt (priceCondition CGt (-1) None) 94 [ofZ 100] = false.
Proof.
  apply checkCondition_price_short_history; [reflexivity | simpl; lia].
Defined.

(** ** Risk score *)

Lemma this_Q2Qc (q : Q) : (this (Q2Qc q) == q)%Q.
Proof. apply Qred_correct. Qed.

(** Turn a goal on canonical rationals into one on plain rationals. *)
Ltac qc2q :=
  unfold Qcle, Qclt, Qcminus, Qcdiv, Qcplus, Qcmult, Qcopp, Qcinv, zeroQc in *;
  repeat match goal with
  | H : context [this (Q2Qc ?q)] |- _ => rewrite (this_Q2Qc q) in H
  | |- context [this (Q2Qc ?q)] => rewrite (this_Q2Qc q)
  end;
  unfold inject_Z in *.

Lemma Qc_ltb_ge (a b : Qc) : Qc_ltb a b = false <-> (b <= a)%Qc.
Proof.
  split.
  - intros H. apply Qcnot_lt_le. rewrite <- Qc_ltb_lt. congruence.
  - intros H. destruct (Qc_ltb a b) eqn:E; [|done].
    apply Qc_ltb_lt in E. by apply Qcle_not_lt in H.
Qed.

Lemma le_fin (a b : Qc) : le (Fin a) (Fin b) <-> (a <= b)%Qc.
Proof. unfold le. cbn. apply Qc_leb_le. Qed.

Lemma min_fin (a b : Qc) :
  Num.min (Fin a) (Fin b) = Fin (if Qc_ltb b a then b else a).
Proof. unfold Num.min. cbn. by destruct (Qc_ltb b a). Qed.

Lemma max_fin (a b : Qc) :
  Num.max (Fin a) (Fin b) = Fin (if Qc_ltb a b then b else a).
Proof. unfold Num.max. cbn. by destruct (Qc_ltb a b). Qed.

(** Above zero, clamping to [0, 100] is taking the minimum with 100. *)
Lemma clamp_nonneg (s : Qc) :
  (Q2Qc 0 <= s)%Qc ->
  clamp 0 100 (Fin s) = Num.min 100 (Fin s)
  /\ le 0 (Num.min 100 (Fin s)) /\ le (Num.min 100 (Fin s)) 100.
Proof.
  intros Hs. unfold clamp, ofZ, ofQ. rewrite min_fin, max_fin.
  destruct (Qc_ltb s (Q2Qc (inject_Z 100))) eqn:E.
  - apply Qc_ltb_lt in E. repeat split.
    + f_equal. destruct (Qc_ltb _ s) eqn:E'; [done|].
      apply Qc_ltb_ge in E'. apply Qcle_antisym; [exact Hs | exact E'].
    + apply le_fin. exact Hs.
    + apply le_fin. by apply Qclt_le_weak.
  - repeat split.
Qed.

Lemma tvlFactor_range (t : num) :
  le 0 t ->
  exists f : Qc, Num.max 0 (20 - t / 10000000)%num = Fin f
                 /\ (Q2Qc 0 <= f)%Qc.
Proof.
  destruct t as [q| | | |]; try discriminate; intros Ht.
  - change (20 - Fin q / 10000000)%num
      with (Fin (Q2Qc (inject_Z 20) - q / Q2Qc (inject_Z 10000000))%Qc).
    unfold ofZ at 1, ofQ. rewrite max_fin. eexists; split; [reflexivity|].
    destruct (Qc_ltb _ _) eqn:E.
    + apply Qc_ltb_lt in E. by apply Qclt_le_weak.
    + apply Qcle_refl.
  - exists (Q2Qc 0). split; [reflexivity|]. apply Qcle_refl.
Qed.

(** C6.  For a yield with nonnegative TVL the risk score is
    [base(risk) + max(0, 20 - tvl/10,000,000) + (15 if apy > 100 else 0)]
    clamped to [0, 100], with base 20, 50, 80 for low, medium, high; it
    lies in [0, 100]. *)
Theorem calculateRiskScore_spec (y : ProtocolYield) :
  le 0 (tvl y) ->
  let base := match risk y with Low => ofZ 20 | Medium => ofZ 50 | High => ofZ 80 end in
  let tvlFactor := Num.max 0 (20 - tvl y / 10000000)%num in
  let apyFactor := if (apy y >? 100)%num then ofZ 15 else ofZ 0 in
  let score := RebalancingEngine.calculateRiskScore y in
  score = clamp 0 100 (base + tvlFactor + apyFactor)%num
  /\ le 0 score /\ le score 100.
Proof.
  intros Htvl base tvlFactor apyFactor score.
  destruct (tvlFactor_range (tvl y) Htvl) as (f & Hf & Hf0).
  assert (Hraw : exists s : Qc, (base + tvlFactor + apyFactor)%num = Fin s
                                /\ (Q2Qc 0 <= s)%Qc).
  { subst tvlFactor. rewrite Hf. subst base apyFactor.
    destruct (risk y), (apy y >? 100)%num; cbn; eexists; (split; [reflexivity|]);
      qc2q; lra. }
  destruct Hraw as (s & Hs & Hs0).
  assert (Hscore : score = Num.min 100 (Fin s)).
  { subst score. unfold RebalancingEngine.calculateRiskScore.
    fold tvlFactor. fold apyFactor.
    replace (RebalancingEngine.riskMap (risk y)) with base
      by (subst base; by destruct (risk y)).
    by rewrite Hs. }
  rewrite Hscore, Hs.
  destruct (clamp_nonneg s Hs0) as (H1 & H2 & H3). by rewrite H1.
Qed.

Lemma calculateRiskScore_spec_witness :
  let y := YieldAggregator.mk Kamino "SOL Multiply" (892 # 10) 78000000 High "SOL" "K" in
  RebalancingEngine.calculateRiskScore y
  = clamp 0 100 (80 + Num.max 0 (20 - 78000000 / 10000000) + 0)%num
  /\ le 0 (RebalancingEngine.calculateRiskScore y)
  /\ le (RebalancingEngine.calculateRiskScore y) 100.
Proof.
  exact (calculateRiskScore_spec
           (YieldAggregator.mk Kamino "SOL Multiply" (892 # 10) 78000000 High "SOL" "K")
           eq_refl).
Defined.

(** ** Arrays *)

Lemma aget_lookup (a : list num) (i : nat) (x : num) :
  a !! i = Some x -> aget a (Z.of_nat i) = x.
Proof.
  intros H. unfold aget.
  destruct (Z.ltb_spec (Z.of_nat i) 0); [lia|].
  by rewrite Nat2Z.id, H.
Qed.

Lemma aget_pred (a : list num) (i : nat) (x : num) :
  a !! i = Some x -> aget a (Z.of_nat (S i) - 1) = x.
Proof.
  intros H. replace (Z.of_nat (S i) - 1) with (Z.of_nat i) by lia.
  by apply aget_lookup.
Qed.


Lemma relIndex_neg (len k : nat) :
  (1 <= k)%nat -> relIndex len (- Z.of_nat k) = (len - k)%nat.
Proof.
  intros Hk. unfold relIndex.
  destruct (Z.ltb_spec (- Z.of_nat k) 0); lia.
Qed.

Lemma relIndex_nat (len k : nat) :
  relIndex len (Z.of_nat k) = Nat.min k len.
Proof.
  unfold relIndex. destruct (Z.ltb_spec (Z.of_nat k) 0); lia.
Qed.

(** [a.slice(-k)] keeps the last [k] elements, for [k >= 1]. *)
Lemma sliceFrom_neg {A} (a : list A) (k : nat) :
  (1 <= k)%nat -> sliceFrom a (- Z.of_nat k) = lastN k a.
Proof.
  intros Hk. unfold sliceFrom, slice, lastN.
  rewrite relIndex_neg, relIndex_nat by done.
  apply take_ge. rewrite length_drop. lia.
Qed.

(** [a.slice(0, k)] keeps the first [k] elements. *)
Lemma slice_prefix {A} (a : list A) (k : nat) :
  slice a 0 (Z.of_nat k) = take k a.
Proof.
  unfold slice. change 0 with (Z.of_nat 0). rewrite !relIndex_nat.
  cbn [Nat.min drop]. rewrite Nat.sub_0_r.
  destruct (Nat.le_ge_cases k (length a)).
  - by rewrite Nat.min_l.
  - rewrite Nat.min_r by done. by rewrite !take_ge.
Qed.

Lemma fold_left_inv {A B} (P : A -> Prop) (f : A -> B -> A) (l : list B) (a : A) :
  P a -> (forall x i, i ∈ l -> P x -> P (f x i)) -> P (fold_left f l a).
Proof.
  revert a. induction l as [|i l IH]; intros a Ha Hstep; [done|].
  cbn. apply IH.
  - apply Hstep; [left | done].
  - intros x j Hj. apply Hstep. by right.
Qed.


(** ** Moving averages *)

Lemma ofNat_fin (n : nat) : ofNat n = Fin (natQc n).
Proof. reflexivity. Qed.


Lemma natQc_pos (n : nat) : (1 <= n)%nat -> (Q2Qc 0 < natQc n)%Qc.
Proof.
  intros Hn. unfold natQc. qc2q. unfold Qlt. cbn. lia.
Qed.

Lemma natQc_nonzero (n : nat) : (1 <= n)%nat -> Qc_eqb (natQc n) zeroQc = false.
Proof.
  intros Hn. destruct (Qc_eqb _ _) eqn:E; [|done].
  apply Qc_eqb_eq in E. pose proof (natQc_pos n Hn) as H.
  rewrite E in H. by apply Qclt_not_eq in H.
Qed.

Lemma div_fin (a b : Qc) :
  Qc_eqb b zeroQc = false -> (Fin a / Fin b)%num = Fin (a / b)%Qc.
Proof. intros H. cbn. by rewrite H. Qed.







(** ** MACD *)


Lemma is_fin_inv (x : num) : is_fin x -> exists q, x = Fin q.
Proof. destruct x; try done. eauto. Qed.

Lemma aget_fin (a : list num) (i : nat) :
  Forall is_fin a -> (i < length a)%nat -> is_fin (aget a (Z.of_nat i)).
Proof.
  intros Ha Hi. destruct (lookup_lt_is_Some_2 a i Hi) as [x Hx].
  rewrite (aget_lookup _ _ _ Hx).
  eapply Forall_lookup_1; eauto.
Qed.




Lemma histogram_sign (a b : Qc) :
  let m := (Fin a - Fin b)%num in
  (m - m * ofQ (9 # 10) >? 0)%num = (Fin a >? Fin b)%num.
Proof.
  cbn. unfold gtb, ltb, ofZ, ofQ.
  destruct (Qc_ltb b a) eqn:E.
  - apply Qc_ltb_lt in E. apply Qc_ltb_lt. qc2q. lra.
  - apply Qc_ltb_ge in E. apply Qc_ltb_ge. qc2q. lra.
Qed.



(** ** Price history *)

Lemma getPriceHistory_update_same (st : histories) (asset : str) (price : num) :
  getPriceHistory (updatePriceHistory st asset price) asset
  = let pushed := getPriceHistory st asset ++ [price] in
    if (200 <? length pushed)%nat then drop 1 pushed else pushed.
Proof.
  unfold getPriceHistory, updatePriceHistory.
  rewrite lookup_insert_eq. cbn [default].
  destruct (st !! asset) as [h|] eqn:E.
  - by rewrite E.
  - by rewrite lookup_insert_eq.
Qed.

Lemma getPriceHistory_update_other (st : histories) (asset other : str)
    (price : num) :
  other <> asset ->
  getPriceHistory (updatePriceHistory st asset price) other
  = getPriceHistory st other.
Proof.
  intros Hne. unfold getPriceHistory, updatePriceHistory.
  rewrite lookup_insert_ne by done.
  destruct (st !! asset); [done|]. by rewrite lookup_insert_ne.
Qed.

Lemma length_lastN {A} (n : nat) (l : list A) :
  length (lastN n l) = Nat.min n (length l).
Proof. unfold lastN. rewrite length_drop. lia. Qed.

(** Appending to a window of 200 and dropping the oldest sample on
    overflow gives the window of the extended sequence. *)
Lemma lastN_push {A} (ps : list A) (p : A) :
  (let pushed := lastN 200 ps ++ [p] in
   if (200 <? length pushed)%nat then drop 1 pushed else pushed)
  = lastN 200 (ps ++ [p]).
Proof.
  cbv zeta. rewrite length_app, length_lastN. cbn [length].
  unfold lastN. rewrite length_app. cbn [length].
  destruct (Nat.ltb_spec 200 (Nat.min 200 (length ps) + 1)) as [H|H].
  - rewrite <- drop_app_le by lia. rewrite drop_drop. f_equal. lia.
  - replace (length ps - 200)%nat with 0%nat by lia.
    replace (length ps + 1 - 200)%nat with 0%nat by lia. done.
Qed.

Lemma pricesFor_snoc (asset : str) (calls : list (str * num)) (c : str * num) :
  pricesFor asset (calls ++ [c])
  = pricesFor asset calls ++ (if decide (fst c = asset) then [snd c] else []).
Proof.
  unfold pricesFor. rewrite filter_app, map_app. f_equal.
  rewrite filter_cons, filter_nil. by destruct (decide (fst c = asset)).
Qed.

Lemma runUpdates_snoc (calls : list (str * num)) (c : str * num) :
  runUpdates (calls ++ [c])
  = updatePriceHistory (runUpdates calls) (fst c) (snd c).
Proof. unfold runUpdates. by rewrite fold_left_app. Qed.

Lemma runUpdates_history (calls : list (str * num)) (asset : str) :
  getPriceHistory (runUpdates calls) asset = lastN 200 (pricesFor asset calls).
Proof.
  induction calls as [|c calls IH] using rev_ind.
  - unfold runUpdates, getPriceHistory. cbn. by rewrite lookup_empty.
  - rewrite runUpdates_snoc, pricesFor_snoc.
    destruct (decide (fst c = asset)) as [->|Hne].
    + rewrite getPriceHistory_update_same, IH. apply lastN_push.
    + rewrite getPriceHistory_update_other by done.
      by rewrite IH, app_nil_r.
Qed.

(** C7.  After any sequence of calls of updatePriceHistory on a new
    executor, the history of every asset has at most 200 samples and is
    the last 200 prices received for that asset, in arrival order; a call
    appends the price and, when that makes 201 samples, removes the
    oldest. *)
Theorem updatePriceHistory_window (calls : list (str * num)) (asset : str) :
  let st := runUpdates calls in
  (length (getPriceHistory st asset) <= 200)%nat
  /\ getPriceHistory st asset = lastN 200 (pricesFor asset calls)
  /\ forall price : num,
       let pushed := getPriceHistory st asset ++ [price] in
       getPriceHistory (updatePriceHistory st asset price) asset
       = if (200 <? length pushed)%nat then drop 1 pushed else pushed.
Proof.
  intros st. subst st. repeat split.
  - rewrite runUpdates_history, length_lastN. lia.
  - apply runUpdates_history.
  - intros price. apply getPriceHistory_update_same.
Qed.

Example updatePriceHistory_evicts :
  let calls := map (fun i => (lit "SOL/USDC", ofNat i)) (seq 0 203) in
  getPriceHistory (runUpdates calls) (lit "SOL/USDC") = map ofNat (seq 3 200).
Proof.
  intros calls. rewrite runUpdates_history. vm_compute. reflexivity.
Qed.

(** ** Rebalancing recommendations *)

Lemma firstBetter_Some (position : Position) (ranked : list ProtocolYield)
    (r : RebalanceRecommendation) :
  RebalancingEngine.firstBetter position ranked = Some r ->
  from r = position /\ to r ∈ ranked /\ wellFounded r.
Proof.
  induction ranked as [|y ranked IH]; cbn; [done|].
  destruct (_ && _) eqn:E.
  - intros [= <-]. cbn. apply andb_prop in E as [Hapy Hproto].
    split; [done|]. split; [left|].
    unfold wellFounded; cbn. split; [|done].
    apply negb_true_iff in Hproto. unfold str_eqb in Hproto.
    by apply bool_decide_eq_false in Hproto.
  - intros H. destruct (IH H) as (? & ? & ?).
    split; [done|]. split; [by right | done].
Qed.

Lemma analyzeWith_fold (step : list RebalanceRecommendation -> Position ->
                               list RebalanceRecommendation)
    (positions : list Position) (acc : list RebalanceRecommendation) :
  (forall recs p, step recs p = recs
                  \/ exists r, step recs p = recs ++ [r]
                               /\ from r = p /\ wellFounded r) ->
  exists added,
    fold_left step positions acc = acc ++ added
    /\ Forall wellFounded added
    /\ map from added `sublist_of` positions.
Proof.
  intros Hstep. revert acc.
  induction positions as [|p positions IH]; intros acc; cbn [fold_left].
  - exists []. by rewrite app_nil_r.
  - destruct (Hstep acc p) as [-> | (r & -> & Hfrom & Hwf)].
    + destruct (IH acc) as (added & -> & Hall & Hsub).
      exists added. repeat split; [done|]. by apply sublist_cons.
    + destruct (IH (acc ++ [r])) as (added & -> & Hall & Hsub).
      exists (r :: added). rewrite <- app_assoc. repeat split.
      * by constructor.
      * cbn [map]. rewrite Hfrom. by apply sublist_skip.
Qed.

Lemma analyzeWith_sound (allYields : list ProtocolYield)
    (positions : list Position) (riskTolerance : RiskTolerance) :
  let recs := RebalancingEngine.analyzeWith allYields positions riskTolerance in
  Forall wellFounded recs /\ map from recs `sublist_of` positions.
Proof.
  unfold RebalancingEngine.analyzeWith.
  match goal with
  | |- context [fold_left ?f positions []] =>
      destruct (analyzeWith_fold f positions []) as (added & -> & Hall & Hsub)
  end; [|done].
  intros recs p. destruct (find _ allYields); [|by left].
  destruct (RebalancingEngine.firstBetter p _) as [r|] eqn:E; [|by left].
  right. exists r. apply firstBetter_Some in E as (? & ? & ?). done.
Qed.

(** The positions of the dashboard, at balanced tolerance: both are sent
    to the best-ranked eligible pool, on Kamino. *)
Example analyzePositions_dashboard :
  let marinade := {| posProtocol := lit "Marinade"; posPool := lit "mSOL Stake Pool";
                     posAmount := 10; posValue := 1500; posApy := ofQ (78 # 10) |} in
  let raydium := {| posProtocol := lit "Raydium"; posPool := lit "SOL-USDC";
                    posAmount := 5; posValue := 1200; posApy := ofQ (234 # 10) |} in
  let unknown := {| posProtocol := lit "Orca"; posPool := lit "SOL-USDC";
                    posAmount := 1; posValue := 100; posApy := 1 |} in
  map (fun r => (from r, pool (to r), recAmount r, expectedGain r))
      (RebalancingEngine.analyzePositions [marinade; unknown; raydium] Balanced)
  = [ (marinade, lit "JitoSOL Multiply", ofZ 5, ofZ 894);
      (raydium, lit "JitoSOL Multiply", ofQ (5 # 2), ofZ 528) ].
Proof.
  vm_compute.
  repeat match goal with
         | |- _ :: _ = _ :: _ => apply (f_equal2 cons)
         | |- (_, _) = (_, _) => apply (f_equal2 pair)
         | |- Fin _ = Fin _ => apply Fin_ext; reflexivity
         | |- _ => reflexivity
         end.
Qed.

(** C5.  Every recommendation of analyzePositions names a target on a
    protocol other than the position's, with an APY more than 5 points
    above the position's, and moves half of the held amount; the
    positions recommended for form a subsequence of the input, so each
    position receives at most one recommendation. *)
Theorem analyzePositions_sound (positions : list Position)
    (riskTolerance : RiskTolerance) :
  let recs := RebalancingEngine.analyzePositions positions riskTolerance in
  Forall (fun r =>
            protocolName (protocol (to r)) <> posProtocol (from r)
            /\ (apy (to r) - posApy (from r) >? 5)%num = true
            /\ recAmount r = (posAmount (from r) * ofQ (1 # 2))%num) recs
  /\ map from recs `sublist_of` positions.
Proof. apply analyzeWith_sound. Qed.

(** ** Profit and loss *)

Import PnLTracker.

(** The index loop visits exactly the pairs of [indexPairs]. *)
Lemma pairLoop_indexPairs (fuel : nat) (pre rest : list Trade) (acc : PairAcc) :
  (length rest <= fuel)%nat ->
  pairLoop fuel (pre ++ rest) (length pre) acc
  = fold_left pairStep (indexPairs rest) acc.
Proof.
  revert pre rest acc. induction fuel as [|fuel IH]; intros pre rest acc Hlen.
  - destruct rest; [done | cbn in Hlen; lia].
  - cbn [pairLoop]. rewrite length_app.
    destruct rest as [|a [|b rest]].
    + cbn [length]. destruct (Nat.ltb_spec (length pre) (length pre + 0)); [lia | done].
    + cbn [length]. destruct (Nat.ltb_spec (length pre) (length pre + 1)); [|lia].
      destruct (Nat.leb_spec (length pre + 1) (length pre + 1)); [done | lia].
    + cbn [length] in *.
      destruct (Nat.ltb_spec (length pre) (length pre + S (S (length rest)))); [|lia].
      destruct (Nat.leb_spec (length pre + S (S (length rest))) (length pre + 1)); [lia|].
      rewrite list_lookup_middle by done.
      replace (pre ++ a :: b :: rest) with ((pre ++ [a]) ++ b :: rest)
        by by rewrite <- app_assoc.
      rewrite list_lookup_middle by (rewrite length_app; cbn; lia).
      replace ((pre ++ [a]) ++ b :: rest) with ((pre ++ [a; b]) ++ rest)
        by by rewrite <- !app_assoc.
      replace (length pre + 2)%nat with (length (pre ++ [a; b]))
        by (rewrite length_app; cbn; lia).
      cbn [indexPairs fold_left]. unfold pairStep at 2, realized, pairPnl.
      cbn [fst snd].
      destruct (isBuy a && isSell b); apply IH; lia.
Qed.

Lemma pairStep_pnls (pairs : list (Trade * Trade)) (acc : PairAcc) :
  let final := fold_left pairStep pairs acc in
  accPnLs final
  = accPnLs acc ++ map pairPnl (filter (fun p => realized p = true) pairs)
  /\ accPnL final
     = fold_left add (map pairPnl (filter (fun p => realized p = true) pairs))
         (accPnL acc)
  /\ accWins final
     = (accWins acc
        + length (filter (fun x => gtb x (ofZ 0) = true)
                    (map pairPnl (filter (fun p => realized p = true) pairs))))%nat.
Proof.
  revert acc. induction pairs as [|p pairs IH]; intros acc; cbn [fold_left].
  - cbn. by rewrite app_nil_r, Nat.add_0_r.
  - rewrite filter_cons. unfold pairStep at 2 4 6.
    destruct (realized p) eqn:E.
    + rewrite decide_True by done.
      destruct (IH {| accPnL := (accPnL acc + pairPnl p)%num;
                      accWins := if (pairPnl p >? 0)%num then S (accWins acc)
                                 else accWins acc;
                      accPnLs := accPnLs acc ++ [pairPnl p] |})
        as (H1 & H2 & H3).
      cbv zeta in *. rewrite H1, H2, H3. cbn [accPnLs accPnL accWins map fold_left].
      rewrite <- app_assoc. repeat split.
      rewrite filter_cons. destruct (pairPnl p >? 0)%num.
      * rewrite decide_True by done. cbn [length]. lia.
      * rewrite decide_False by done. lia.
    + rewrite decide_False by (try rewrite E; done). apply IH.
Qed.

Lemma floor_half (n : nat) : floor (ofNat n / 2)%num = ofNat (n / 2).
Proof.
  rewrite ofNat_fin. unfold ofZ at 1, ofQ. rewrite div_fin by done.
  unfold floor, ofNat. do 2 f_equal.
  rewrite Nat2Z.inj_div. change (Z.of_nat 2) with 2.
  rewrite Zdiv_Qdiv. apply Qfloor_comp.
  unfold natQc. qc2q. reflexivity.
Qed.

Lemma gtb_ofNat_0 (n : nat) : (ofNat n >? 0)%num = (0 <? n)%nat.
Proof.
  unfold gtb, ltb, ofNat, ofZ, ofQ.
  destruct (Nat.ltb_spec 0 n) as [H|H].
  - apply Qc_ltb_lt. by apply natQc_pos.
  - assert (n = 0)%nat as -> by lia. reflexivity.
Qed.

Lemma winRate_formula (w p : nat) :
  (1 <= p)%nat ->
  (ofNat w / ofNat p * 100)%num = (100 * ofNat w / ofNat p)%num.
Proof.
  intros Hp. rewrite !ofNat_fin. unfold ofZ, ofQ. cbn [mul].
  rewrite !div_fin by by apply natQc_nonzero. cbn [mul]. f_equal.
  field. intros E. pose proof (natQc_nonzero p Hp) as H.
  rewrite E in H. discriminate.
Qed.

Lemma length_indexPairs (l : list Trade) :
  length (indexPairs l) = (length l / 2)%nat.
Proof.
  remember (length l) as n eqn:Hn.
  revert l Hn. induction n as [n IH] using lt_wf_ind. intros l Hn.
  destruct l as [|a [|b l]]; cbn [indexPairs length] in *; subst; try done.
  rewrite (IH (length l)) with (l := l) by (done || lia).
  change (S (S (length l))) with (2 + length l)%nat.
  replace (2 + length l)%nat with (1 * 2 + length l)%nat by lia.
  rewrite Nat.div_add_l by done. lia.
Qed.

Lemma performanceOf_pairs (Math_sqrt : num -> num) (strategyName : str)
    (trades : list Trade) :
  let perf := performanceOf Math_sqrt strategyName trades in
  let pairs := (length trades / 2)%nat in
  totalPnL perf = sum (pairPnls trades)
  /\ winRate perf
     = (if (0 <? pairs)%nat
        then (100 * ofNat (winningPairs trades) / ofNat pairs)%num
        else ofZ 0).
Proof.
  intros perf pairs. subst perf. unfold performanceOf.
  destruct (Nat.eqb_spec (length trades) 0) as [H0|H0].
  - destruct trades; [|done]. split; reflexivity.
  - destruct (fold_left drawdownStep _ _) as [[? ?] ?]. cbn [totalPnL winRate].
    rewrite (pairLoop_indexPairs (length trades) [] trades) by done.
    destruct (pairStep_pnls (indexPairs trades)
                {| accPnL := 0; accWins := 0; accPnLs := [] |}) as (_ & Hp & Hw).
    cbv zeta in Hp, Hw. split; [exact Hp|].
    rewrite floor_half, gtb_ofNat_0. fold pairs.
    destruct (Nat.ltb_spec 0 pairs) as [Hpos|Hpos]; [|done].
    rewrite Hw. cbn [accWins Nat.add].
    by apply winRate_formula.
Qed.


Example calculatePerformance_unordered (Math_sqrt : num -> num) (t : Trade) :
  let ledger := [tradeWith t Sell 110 1; tradeWith t Buy 100 1;
                 tradeWith t Buy 100 2; tradeWith t Sell 90 2;
                 tradeWith t Buy 50 1] in
  let perf := performanceOf Math_sqrt (strategy t) ledger in
  totalPnL perf = (-20) /\ winRate perf = 0 /\ totalTrades perf = 5.
Proof. intros ledger perf. repeat split; vm_compute; apply Fin_ext; reflexivity. Qed.

(** ** Relative strength index *)

(** The index loop of calculateRSI accumulates the gains and the losses
    of the consecutive differences. *)
Lemma rsiLoop_deltas (pre rest : list num) (a g l : num) :
  fold_left (rsiStep (pre ++ a :: rest)) (seq (S (length pre)) (length rest)) (g, l)
  = (fold_left add (gainsOf (deltas (a :: rest))) g,
     fold_left add (lossesOf (deltas (a :: rest))) l).
Proof.
  revert pre a g l. induction rest as [|b rest IH]; intros pre a g l; [done|].
  cbn [length seq fold_left].
  assert (Hb : aget (pre ++ a :: b :: rest) (Z.of_nat (S (length pre))) = b).
  { apply aget_lookup.
    replace (pre ++ a :: b :: rest) with ((pre ++ [a]) ++ b :: rest)
      by by rewrite <- app_assoc.
    apply list_lookup_middle. rewrite length_app. cbn. lia. }
  assert (Ha : aget (pre ++ a :: b :: rest) (Z.of_nat (S (length pre)) - 1) = a).
  { apply aget_pred. by apply list_lookup_middle. }
  unfold rsiStep at 2. rewrite Hb, Ha.
  replace (pre ++ a :: b :: rest) with ((pre ++ [a]) ++ b :: rest)
    by by rewrite <- app_assoc.
  replace (S (S (length pre))) with (S (length (pre ++ [a])))
    by (rewrite length_app; cbn; lia).
  change (deltas (a :: b :: rest)) with ((b - a)%num :: deltas (b :: rest)).
  unfold gainsOf, lossesOf. rewrite !filter_cons.
  destruct (b - a >? 0)%num eqn:E.
  - rewrite decide_True, decide_False by (rewrite ?E; done).
    rewrite IH. reflexivity.
  - rewrite decide_False, decide_True by (rewrite ?E; done).
    rewrite IH. reflexivity.
Qed.

Lemma deltas_drop (k : nat) (l : list num) :
  deltas (drop k l) = drop k (deltas l).
Proof.
  revert l. induction k as [|k IH]; intros l; [by rewrite !drop_0|].
  destruct l as [|a [|b l]]; [done | cbn; by rewrite ?drop_nil |].
  change (deltas (a :: b :: l)) with ((b - a)%num :: deltas (b :: l)).
  cbn [drop]. apply IH.
Qed.

Lemma length_deltas (l : list num) : length (deltas l) = (length l - 1)%nat.
Proof.
  induction l as [|a [|b l] IH]; [done | done |].
  change (deltas (a :: b :: l)) with ((b - a)%num :: deltas (b :: l)).
  cbn [length] in *. lia.
Qed.

Lemma deltas_lastN (period : nat) (prices : list num) :
  deltas (lastN (period + 1) prices) = lastN period (deltas prices).
Proof.
  unfold lastN. rewrite deltas_drop, length_deltas. f_equal. lia.
Qed.

(** The sums of calculateRSI are the sums of the gains and of the losses
    over the last [period] differences. *)
Lemma rsiSums_spec (prices : list num) (period : nat) :
  (period + 1 <= length prices)%nat ->
  rsiAvgGain prices period = avgGain prices period
  /\ rsiAvgLoss prices period = avgLoss prices period.
Proof.
  intros Hlen. unfold rsiAvgGain, rsiAvgLoss, avgGain, avgLoss, rsiSums.
  replace (- Z.of_nat period - 1) with (- Z.of_nat (period + 1)) by lia.
  rewrite sliceFrom_neg by lia. rewrite <- deltas_lastN.
  destruct (lastN (period + 1) prices) as [|a rest] eqn:E.
  { apply (f_equal length) in E. rewrite length_lastN in E. cbn in E. lia. }
  unfold range. cbn [length]. rewrite Nat.sub_succ, Nat.sub_0_r.
  rewrite (rsiLoop_deltas [] rest a). done.
Qed.


Lemma deltas_fin (l : list num) : Forall is_fin l -> Forall is_fin (deltas l).
Proof.
  induction l as [|a [|b l] IH]; intros H; [constructor | constructor |].
  change (deltas (a :: b :: l)) with ((b - a)%num :: deltas (b :: l)).
  inversion H as [|? ? Ha H']; subst. inversion H' as [|? ? Hb _]; subst.
  constructor; [|by apply IH].
  destruct a, b; done.
Qed.



Lemma rsi_range_Q (g l p : Q) :
  (0 <= g)%Q -> (0 < l)%Q -> (0 < p)%Q ->
  (0 < l * / p)%Q
  /\ (0 < 1 + g * / p * / (l * / p))%Q
  /\ (0 <= 100 + - (100 * / (1 + g * / p * / (l * / p))))%Q
  /\ (100 + - (100 * / (1 + g * / p * / (l * / p))) < 100)%Q.
Proof.
  intros Hg Hl Hp.
  pose proof (Qinv_lt_0_compat p Hp) as Hip.
  assert (H1 : (0 < l * / p)%Q) by by apply Qmult_lt_0_compat.
  assert (H2 : (0 <= g * / p)%Q)
    by (apply Qmult_le_0_compat; [done | by apply Qlt_le_weak]).
  assert (H3 : (0 <= g * / p * / (l * / p))%Q)
    by (apply Qmult_le_0_compat; [done | by apply Qlt_le_weak, Qinv_lt_0_compat]).
  set (rs := (g * / p * / (l * / p))%Q) in *.
  assert (H4 : (0 < 1 + rs)%Q) by lra.
  pose proof (Qinv_lt_0_compat _ H4) as H5.
  assert (H6 : (/ (1 + rs) <= 1)%Q) by (apply Qle_shift_inv_r; [done | lra]).
  set (y := (/ (1 + rs))%Q) in *.
  repeat split; lra.
Qed.

Lemma Qc_pos_nonzero (a : Qc) : (Q2Qc 0 < a)%Qc -> Qc_eqb a zeroQc = false.
Proof.
  intros Ha. destruct (Qc_eqb a zeroQc) eqn:E; [|done].
  apply Qc_eqb_eq in E. subst a. by apply Qclt_not_eq in Ha.
Qed.




Lemma Qc_zero_div (p : Qc) : (Q2Qc 0 / p)%Qc = Q2Qc 0.
Proof. unfold Qcdiv. ring. Qed.



Example calculateRSI_value :
  calculateRSI (map ofZ [1; 2; 3; 4; 3; 2; 5; 6; 7; 8; 7; 6; 9; 10; 11; 12]) 14
  = ofQ (7778 # 100).
Proof. vm_compute. apply Fin_ext. reflexivity. Qed.



(** * Further properties of the code *)

(** ** The matcher and the parser *)

(** What the matcher accepts is a word of the expression, followed by a
    rest that the continuation accepts. *)
Lemma run_sound (ci : bool) (R : Type) (r : regex) :
  forall (s : str) (cap : option str) (k : str -> option str -> option R) (x : R),
    run ci R r s cap k = Some x ->
    exists w s' cap', s = w ++ s' /\ matches ci r w /\ k s' cap' = Some x.
Proof.
  induction r as [| c | | | r1 IH1 r2 IH2 | r1 IH1 r2 IH2 | r1 IH1 | r1 IH1];
    intros s cap k x H; cbn [run] in H.
  - exists [], s, cap. repeat split; [constructor | done].
  - destruct s as [|y s]; [done|]. destruct (chr_matches ci c y) eqn:E; [|done].
    exists [y], s, cap. repeat split; [by constructor | done].
  - destruct s as [|y s]; [done|]. destruct (isDigit y) eqn:E; [|done].
    exists [y], s, cap. repeat split; [by constructor | done].
  - destruct s as [|y s]; [done|]. destruct (isSpace y) eqn:E; [|done].
    exists [y], s, cap. repeat split; [by constructor | done].
  - apply IH1 in H as (w1 & s1 & cap1 & -> & Hm1 & H).
    apply IH2 in H as (w2 & s2 & cap2 & -> & Hm2 & H).
    exists (w1 ++ w2), s2, cap2. rewrite app_assoc.
    repeat split; [by constructor | done].
  - destruct (run ci R r1 s cap k) as [y|] eqn:E.
    + injection H as ->. apply IH1 in E as (w & s' & cap' & -> & Hm & Hk).
      exists w, s', cap'. repeat split; [by apply M_AltL | done].
    + apply IH2 in H as (w & s' & cap' & -> & Hm & Hk).
      exists w, s', cap'. repeat split; [by apply M_AltR | done].
  - revert H. generalize (length s) at 1 as n. intros n. revert s cap.
    induction n as [|n IHn]; intros s cap H.
    + exists [], s, cap. repeat split; [constructor | done].
    + match type of H with
      | match ?e with _ => _ end = _ => destruct e as [y|] eqn:E
      end.
      * injection H as ->.
        apply IH1 in E as (w1 & s1 & cap1 & -> & Hm1 & Hk).
        destruct (length s1 <? length (w1 ++ s1))%nat; [|done].
        apply IHn in Hk as (w2 & s2 & cap2 & -> & Hm2 & Hk).
        exists (w1 ++ w2), s2, cap2. rewrite app_assoc.
        repeat split; [by constructor | done].
      * exists [], s, cap. repeat split; [constructor | done].
  - apply IH1 in H as (w & s' & cap' & -> & Hm & Hk).
    exists w, s', (Some (take (length (w ++ s') - length s') (w ++ s'))).
    repeat split; [by constructor | done].
Qed.

Lemma matches_needs_digit (ci : bool) (r : regex) (w : str) :
  matches ci r w -> needsDigit r = true -> exists c, c ∈ w /\ isDigit c = true.
Proof.
  induction 1 as [| | x Hx | | r1 r2 w1 w2 _ IH1 _ IH2 | r1 r2 w _ IH
                 | r1 r2 w _ IH | | | r w _ IH]; cbn [needsDigit]; intros Hn;
    try discriminate.
  - exists x. split; [left | done].
  - apply orb_prop in Hn as [Hn|Hn].
    + destruct (IH1 Hn) as (c & Hc & Hd). exists c. split; [|done].
      apply elem_of_app. by left.
    + destruct (IH2 Hn) as (c & Hc & Hd). exists c. split; [|done].
      apply elem_of_app. by right.
  - apply andb_prop in Hn as [Hn _]. auto.
  - apply andb_prop in Hn as [_ Hn]. auto.
  - auto.
Qed.

(** A pattern whose words all hold a digit matches nowhere in a text
    without digits. *)
Lemma match_digitFree (ci : bool) (r : regex) (s : str) :
  needsDigit r = true -> digitFree s -> match_ ci r s = None.
Proof.
  intros Hr. induction s as [|c s IH]; intros Hs; cbn [match_].
  - destruct (run _ _ _ _ _ _) as [cap|] eqn:E; [|done].
    apply run_sound in E as (w & s' & _ & Hw & Hm & _).
    destruct (matches_needs_digit _ _ _ Hm Hr) as (d & Hd & _).
    symmetry in Hw. apply app_eq_nil in Hw as [-> _]. by apply elem_of_nil in Hd.
  - destruct (run _ _ _ _ _ _) as [cap|] eqn:E.
    + apply run_sound in E as (w & s' & _ & Hw & Hm & _).
      destruct (matches_needs_digit _ _ _ Hm Hr) as (d & Hd & Hdig).
      assert (Hin : d ∈ c :: s) by (rewrite Hw; apply elem_of_app; by left).
      unfold digitFree in Hs. rewrite Forall_forall in Hs.
      rewrite (Hs d Hin) in Hdig. discriminate.
    + apply IH. by inversion Hs.
Qed.

Lemma isDigit_lower (c : ascii) : isDigit (Str.lower c) = isDigit c.
Proof.
  destruct c as [[] [] [] [] [] [] [] []]; reflexivity.
Qed.

Lemma digitFree_toLowerCase (s : str) : digitFree s -> digitFree (toLowerCase s).
Proof.
  unfold digitFree, toLowerCase. intros H. apply Forall_fmap.
  eapply Forall_impl; [exact H|]. intros c Hc. cbn. by rewrite isDigit_lower.
Qed.

(** X1.  A strategy text without any digit parses to the defaults of
    every numeric field: maximum position 500, risk 10 percent, no stop
    loss, no take profit; its entry condition is never an RSI condition
    and carries one of the fixed values 0 (MACD), 2 or -2 (Bollinger) or
    100 (default). *)
Theorem parseStrategy_digitFree (input : str) :
  digitFree input ->
  let p := StrategyParser.parseStrategy input in
  maxPosition p = 500
  /\ riskPercent p = 10
  /\ stopLoss p = None
  /\ takeProfit p = None
  /\ indicator (entry p) <> Some RSI
  /\ (value (entry p) = 0 \/ value (entry p) = 2 \/ value (entry p) = (-2)
      \/ value (entry p) = 100).
Proof.
  intros Hfree p. subst p.
  pose proof (digitFree_toLowerCase input Hfree) as Hlow.
  unfold StrategyParser.parseStrategy.
  cbn [maxPosition riskPercent stopLoss takeProfit entry].
  unfold StrategyParser.extractMaxPosition, StrategyParser.extractRiskPercent,
    StrategyParser.extractStopLoss, StrategyParser.extractTakeProfit,
    StrategyParser.extractCondition, StrategyParser.priceOrLater,
    StrategyParser.orElse.
  rewrite (match_digitFree false StrategyParser.re_dollars _ eq_refl Hlow),
    (match_digitFree true StrategyParser.re_risk _ eq_refl Hlow),
    (match_digitFree true StrategyParser.re_stop_loss _ eq_refl Hlow),
    (match_digitFree true StrategyParser.re_take_profit _ eq_refl Hlow),
    (match_digitFree true StrategyParser.re_rsi_below _ eq_refl Hlow),
    (match_digitFree true StrategyParser.re_rsi_above _ eq_refl Hlow),
    (match_digitFree true StrategyParser.re_rsi_crosses _ eq_refl Hlow),
    (match_digitFree false StrategyParser.re_percent _ eq_refl Hlow).
  split; [done|]. split; [done|]. split; [done|]. split; [done|].
  assert (Hlater :
    let c := StrategyParser.macdOrLater (toLowerCase input) Entry in
    indicator c <> Some RSI
    /\ (value c = 0 \/ value c = 2 \/ value c = (-2) \/ value c = 100)).
  { unfold StrategyParser.macdOrLater, StrategyParser.bollingerOrDefault,
      StrategyParser.defaultCondition.
    destruct (StrategyParser.has _ "macd"); [cbn; auto|].
    destruct (_ || _); [|cbn; auto].
    destruct (StrategyParser.has _ "upper"); cbn; auto 6. }
  destruct (StrategyParser.has _ "rsi"), (_ || _); exact Hlater.
Qed.

Lemma parseStrategy_digitFree_witness :
  let p := StrategyParser.parseStrategy
             (lit "Sell when Bollinger Bands hit upper band, SOL/USDC pair") in
  maxPosition p = 500
  /\ riskPercent p = 10
  /\ stopLoss p = None
  /\ takeProfit p = None
  /\ indicator (entry p) <> Some RSI
  /\ (value (entry p) = 0 \/ value (entry p) = 2 \/ value (entry p) = (-2)
      \/ value (entry p) = 100).
Proof.
  apply parseStrategy_digitFree. unfold digitFree. repeat constructor.
Defined.

(** X2.  The entry and the exit condition are extracted from the same
    text by the same rules: they are equal, unless no rule applies, and
    then they are the default price conditions "< 100" and "> 100". *)
Theorem extractCondition_entry_exit (input : str) :
  StrategyParser.extractCondition input Entry
  = StrategyParser.extractCondition input Exit
  \/ (StrategyParser.extractCondition input Entry
      = {| type := CtPrice; indicator := None; condition := CLt;
           value := 100; timeframe := Some Tf15m |}
      /\ StrategyParser.extractCondition input Exit
         = {| type := CtPrice; indicator := None; condition := CGt;
              value := 100; timeframe := Some Tf15m |}).
Proof.
  unfold StrategyParser.extractCondition, StrategyParser.priceOrLater,
    StrategyParser.macdOrLater, StrategyParser.bollingerOrDefault,
    StrategyParser.defaultCondition.
  destruct (StrategyParser.has input "rsi");
    [destruct (StrategyParser.orElse _ _); [by left|] |];
    (destruct (StrategyParser.has input "price" || _ || _);
     [destruct (match_ false StrategyParser.re_percent input); [by left|] |];
     (destruct (StrategyParser.has input "macd"); [by left|];
      destruct (StrategyParser.has input "bollinger" || _); [by left|];
      right; by split)).
Qed.

(** ** Indicators: windows, monotone prices, bounds *)

Lemma lastN_lastN {A} (n : nat) (l : list A) : lastN n (lastN n l) = lastN n l.
Proof.
  unfold lastN at 1. rewrite length_lastN.
  replace (Nat.min n (length l) - n)%nat with 0%nat by lia. done.
Qed.

(** X3.  calculateRSI reads only the last period + 1 samples: dropping
    everything before them does not change the result. *)
Theorem calculateRSI_window (prices : list num) (period : nat) :
  (period + 1 <= length prices)%nat ->
  calculateRSI prices period = calculateRSI (lastN (period + 1) prices) period.
Proof.
  intros Hlen. unfold calculateRSI, rsiAvgGain, rsiAvgLoss, rsiSums.
  rewrite length_lastN.
  replace (- Z.of_nat period - 1) with (- Z.of_nat (period + 1)) by lia.
  rewrite !sliceFrom_neg by lia. rewrite lastN_lastN.
  destruct (Nat.ltb_spec (length prices) (period + 1)); [lia|].
  destruct (Nat.ltb_spec (Nat.min (period + 1) (length prices)) (period + 1)); [lia|].
  done.
Qed.

Lemma calculateRSI_window_witness :
  calculateRSI (map ofZ [9; 1; 2; 4]) 2 = calculateRSI (map ofZ [1; 2; 4]) 2.
Proof. apply (calculateRSI_window (map ofZ [9; 1; 2; 4]) 2). simpl. lia. Defined.

Lemma deltas_adjacent (R : num -> num -> Prop) (P : num -> Prop) (l : list num) :
  (forall a b, R a b -> P (b - a)%num) ->
  adjacent R l -> Forall P (deltas l).
Proof.
  intros HRP. induction l as [|a [|b l] IH]; intros H; [constructor | constructor |].
  change (deltas (a :: b :: l)) with ((b - a)%num :: deltas (b :: l)).
  destruct H as [Hab H]. constructor; [by apply HRP | by apply IH].
Qed.

Lemma sum_zeros (l : list num) :
  Forall (fun x => x = Fin (Q2Qc 0)) l -> fold_left add l (Fin (Q2Qc 0)) = Fin (Q2Qc 0).
Proof.
  induction 1 as [|x l -> _ IH]; [done|]. cbn [fold_left add].
  rewrite Qcplus_0_r. exact IH.
Qed.

Lemma sub_fin (a b : Qc) : (Fin b - Fin a)%num = Fin (b - a)%Qc.
Proof. reflexivity. Qed.

(** X4.  On finite prices that never fall, with at least period + 1
    samples, there is no loss in the window and calculateRSI returns 100:
    a flat market reads as fully overbought. *)
Theorem calculateRSI_nondecreasing (prices : list num) (period : nat) :
  Forall is_fin prices -> nondecreasing prices ->
  (1 <= period)%nat -> (period + 1 <= length prices)%nat ->
  calculateRSI prices period = 100.
Proof.
  intros Hfin Hmono Hp Hlen. unfold calculateRSI.
  destruct (Nat.ltb_spec (length prices) (period + 1)); [lia|].
  destruct (rsiSums_spec prices period Hlen) as [_ ->].
  unfold avgLoss.
  assert (Hds : Forall (fun d => is_fin d /\ (d >? 0)%num = false
                                 -> abs d = Fin (Q2Qc 0)) (deltas prices)).
  { assert (H2 : Forall (fun d => exists q, d = Fin q /\ (Q2Qc 0 <= q)%Qc)
                   (deltas prices)).
    { assert (Hboth : adjacent (fun a b => is_fin a /\ is_fin b /\ leb a b = true)
                        prices).
      { clear Hlen H. induction prices as [|a [|b l] IH]; [done | done |].
        destruct Hmono as [Hab Hmono].
        inversion Hfin as [|? ? Ha Hfin']; subst.
        inversion Hfin' as [|? ? Hb _]; subst.
        split; [done|]. by apply IH. }
      eapply deltas_adjacent; [|exact Hboth].
      intros a b (Ha & Hb & Hab).
      destruct (is_fin_inv a Ha) as [qa ->], (is_fin_inv b Hb) as [qb ->].
      exists (qb - qa)%Qc. split; [done|].
      apply Qc_leb_le in Hab. qc2q. lra. }
    eapply Forall_impl; [exact H2|]. cbn. intros d (q & -> & Hq) [_ Hneg].
    cbn. apply Qc_ltb_ge in Hneg.
    destruct (Qc_ltb q zeroQc) eqn:E.
    - apply Qc_ltb_lt in E. by apply Qclt_not_le in E.
    - f_equal. by apply Qcle_antisym. }
  assert (Hzero : Forall (fun x => x = Fin (Q2Qc 0))
                    (lossesOf (lastN period (deltas prices)))).
  { unfold lossesOf. apply Forall_fmap, Forall_forall. intros d Hd.
    apply list_elem_of_filter in Hd as [Hneg Hin]. cbn.
    pose proof (Forall_drop _ (length (deltas prices) - period) _ Hds) as Hds'.
    pose proof (Forall_drop _ (length (deltas prices) - period) _
                  (deltas_fin prices Hfin)) as Hf.
    rewrite Forall_forall in Hds', Hf. apply (Hds' d Hin). split; [|done].
    by apply Hf. }
  unfold sum. change (ofZ 0) with (Fin (Q2Qc 0)) at 1.
  rewrite (sum_zeros _ Hzero), ofNat_fin, div_fin by by apply natQc_nonzero.
  rewrite Qc_zero_div. reflexivity.
Qed.

Lemma calculateRSI_nondecreasing_witness :
  calculateRSI (map ofZ [5; 5; 6; 6; 9]) 3 = 100.
Proof.
  apply calculateRSI_nondecreasing;
    [repeat constructor | repeat split | lia | simpl; lia].
Defined.

Lemma sum_pos (l : list num) (a : Qc) :
  Forall (fun x => exists q, x = Fin q /\ (Q2Qc 0 < q)%Qc) l ->
  (Q2Qc 0 <= a)%Qc -> l <> [] ->
  exists s, fold_left add l (Fin a) = Fin s /\ (Q2Qc 0 < s)%Qc.
Proof.
  intros Hl. revert a. induction Hl as [|x l (q & -> & Hq) Hl IH]; intros a Ha Hne;
    [done|].
  cbn [fold_left add]. destruct l as [|y l].
  - exists (a + q)%Qc. split; [done|]. qc2q. lra.
  - apply IH; [|done]. qc2q. lra.
Qed.

Lemma filter_none {A} (P : A -> Prop) `{forall x, Decision (P x)} (l : list A) :
  Forall (fun x => ~ P x) l -> filter P l = [].
Proof.
  induction 1 as [|x l Hx _ IH]; [done|].
  rewrite filter_cons, decide_False by done. exact IH.
Qed.

Lemma filter_all {A} (P : A -> Prop) `{forall x, Decision (P x)} (l : list A) :
  Forall P l -> filter P l = l.
Proof.
  induction 1 as [|x l Hx _ IH]; [done|].
  rewrite filter_cons, decide_True by done. by rewrite IH.
Qed.

(** X5.  On finite prices that always fall, with at least period + 1
    samples, there is no gain in the window and calculateRSI returns 0. *)
Theorem calculateRSI_decreasing (prices : list num) (period : nat) :
  Forall is_fin prices -> decreasing prices ->
  (1 <= period)%nat -> (period + 1 <= length prices)%nat ->
  calculateRSI prices period = 0.
Proof.
  intros Hfin Hmono Hp Hlen. unfold calculateRSI.
  destruct (Nat.ltb_spec (length prices) (period + 1)); [lia|].
  destruct (rsiSums_spec prices period Hlen) as [-> ->].
  unfold avgGain, avgLoss.
  assert (Hneg : Forall (fun d => exists q, d = Fin q /\ (q < Q2Qc 0)%Qc)
                   (lastN period (deltas prices))).
  { apply Forall_drop.
    assert (Hboth : adjacent (fun a b => is_fin a /\ is_fin b /\ ltb b a = true)
                      prices).
    { clear Hlen H. induction prices as [|a [|b l] IH]; [done | done |].
      destruct Hmono as [Hab Hmono].
      inversion Hfin as [|? ? Ha Hfin']; subst.
      inversion Hfin' as [|? ? Hb _]; subst.
      split; [done|]. by apply IH. }
    eapply deltas_adjacent; [|exact Hboth].
    intros a b (Ha & Hb & Hab).
    destruct (is_fin_inv a Ha) as [qa ->], (is_fin_inv b Hb) as [qb ->].
    exists (qb - qa)%Qc. split; [done|].
    apply Qc_ltb_lt in Hab. qc2q. lra. }
  assert (Hnogain : gainsOf (lastN period (deltas prices)) = []).
  { unfold gainsOf. apply filter_none.
    eapply Forall_impl; [exact Hneg|]. cbn. intros d (q & -> & Hq) Hpos.
    apply Qc_ltb_lt in Hpos. apply Qclt_not_le in Hpos. apply Hpos.
    by apply Qclt_le_weak. }
  assert (Hloss : exists l, sum (lossesOf (lastN period (deltas prices))) = Fin l
                            /\ (Q2Qc 0 < l)%Qc).
  { unfold sum. change (ofZ 0) with (Fin (Q2Qc 0)). apply sum_pos.
    - unfold lossesOf. apply Forall_fmap.
      apply Forall_forall. intros d Hd.
      apply list_elem_of_filter in Hd as [_ Hd].
      rewrite Forall_forall in Hneg. destruct (Hneg d Hd) as (q & -> & Hq).
      cbn. assert (E : Qc_ltb q zeroQc = true) by by apply Qc_ltb_lt.
      rewrite E. exists (- q)%Qc. split; [done|]. qc2q. lra.
    - apply Qcle_refl.
    - unfold lossesOf. rewrite filter_all.
      + intros E. apply (f_equal length) in E.
        rewrite length_fmap, length_lastN, length_deltas in E. cbn in E. lia.
      + eapply Forall_impl; [exact Hneg|]. cbn. intros d (q & -> & Hq).
        apply Qc_ltb_ge. by apply Qclt_le_weak. }
  destruct Hloss as (l & -> & Hl). rewrite Hnogain.
  pose proof (natQc_pos period Hp) as Hpp. rewrite ofNat_fin.
  unfold sum. cbn [fold_left].
  assert (Hlp : Qc_eqb (l / natQc period)%Qc zeroQc = false).
  { apply Qc_pos_nonzero.
    destruct (rsi_range_Q (Q2Qc 0) l (natQc period)) as (H1 & _);
      [apply Qle_refl | done | done |]. qc2q. exact H1. }
  rewrite (div_fin l) by by apply natQc_nonzero.
  change (0 / Fin (natQc period))%num
    with (Fin (Q2Qc 0) / Fin (natQc period))%num.
  rewrite (div_fin (Q2Qc 0)) by by apply natQc_nonzero.
  rewrite Qc_zero_div, (div_fin (Q2Qc 0)) by exact Hlp.
  rewrite Qc_zero_div.
  change (Fin (l / natQc period) === 0)%num
    with (Qc_eqb (l / natQc period)%Qc zeroQc).
  rewrite Hlp. vm_compute. apply Fin_ext. reflexivity.
Qed.

Lemma calculateRSI_decreasing_witness :
  calculateRSI (map ofZ [10; 9; 7; 4; 3]) 3 = 0.
Proof.
  apply calculateRSI_decreasing;
    [repeat constructor | repeat split | lia | simpl; lia].
Defined.








(** ** Degenerate periods *)

Lemma div_by_zero_not_fin (x : num) : ~ is_fin (x / ofNat 0)%num.
Proof.
  rewrite ofNat_fin. destruct x as [q| | | |]; cbn [div]; try tauto.
  change (Qc_eqb (natQc 0) zeroQc) with true. cbv iota.
  unfold inf_of, sgn. destruct (Qccompare q zeroQc); cbn; tauto.
Qed.

Lemma sliceFrom_zero {A} (a : list A) : sliceFrom a (- Z.of_nat 0) = a.
Proof.
  unfold sliceFrom, slice. change (- Z.of_nat 0) with (Z.of_nat 0).
  rewrite !relIndex_nat. cbn [Nat.min drop]. rewrite Nat.min_id, Nat.sub_0_r.
  by rewrite take_ge.
Qed.

Lemma add_nan_r (x : num) : (x + NaN)%num = NaN.
Proof. by destruct x. Qed.

(** X7.  A period of 0 raises no error but poisons the result: on every
    sequence calculateSMA divides the sum of the whole array by 0 and
    returns NaN or an infinity, and calculateEMA returns NaN. *)
Theorem moving_averages_period_zero (prices : list num) :
  ~ is_fin (calculateSMA prices 0) /\ calculateEMA prices 0 = NaN.
Proof.
  split.
  - unfold calculateSMA. cbn [Nat.ltb Nat.leb]. rewrite sliceFrom_zero.
    apply div_by_zero_not_fin.
  - unfold calculateEMA. cbn [Nat.ltb Nat.leb].
    assert (Hseed : calculateSMA (slice prices 0 (Z.of_nat 0)) 0 = NaN).
    { rewrite slice_prefix. reflexivity. }
    rewrite Hseed.
    apply (fold_left_inv (fun x => x = NaN)); [done|].
    intros x i _ ->. apply add_nan_r.
Qed.





(** ** Conditions on indicators *)

Lemma ltb_asym (x y : num) : (x <? y)%num = true -> (y <? x)%num = false.
Proof.
  destruct x as [a| | | |], y as [b| | | |]; cbn; try done.
  intros H. apply Qc_ltb_lt in H. apply Qc_ltb_ge. by apply Qclt_le_weak.
Qed.

Lemma ltb_irrefl (x : num) : (x <? x)%num = false.
Proof.
  destruct (x <? x)%num eqn:E; [|done].
  pose proof (ltb_asym _ _ E). congruence.
Qed.

Lemma calculateEMA_short (prices : list num) (period : nat) :
  (length prices < period)%nat ->
  calculateEMA prices period = aget prices (Z.of_nat (length prices) - 1).
Proof.
  intros H. unfold calculateEMA. apply Nat.ltb_lt in H. by rewrite H.
Qed.

(** X9.  On fewer than 12 samples both averages of calculateMACD fall
    back to the latest price: for finite prices macd, signal and
    histogram are 0 (NaN on an empty history), and a MACD condition is
    false whatever its operator, value and current price. *)
Theorem checkCondition_macd_short (Math_sqrt : num -> num)
    (history : list num) (op : Comparator) (v currentPrice : num)
    (tf : option Timeframe) :
  Forall is_fin history -> (length history < 12)%nat ->
  checkCondition Math_sqrt (indicatorCondition MACD op v tf) currentPrice history
  = false
  /\ (history <> [] ->
      macd (calculateMACD history) = 0
      /\ signal (calculateMACD history) = 0
      /\ histogram (calculateMACD history) = 0).
Proof.
  intros Hfin Hlen.
  assert (H12 : calculateEMA history 12
                = aget history (Z.of_nat (length history) - 1))
    by (apply calculateEMA_short; lia).
  assert (H26 : calculateEMA history 26
                = aget history (Z.of_nat (length history) - 1))
    by (apply calculateEMA_short; lia).
  unfold checkCondition, indicatorCondition, calculateMACD.
  cbn [type indicator histogram macd signal]. rewrite H12, H26.
  destruct history as [|p history].
  - split; [reflexivity | done].
  - assert (Hl : is_fin (aget (p :: history) (Z.of_nat (length (p :: history)) - 1))).
    { replace (Z.of_nat (length (p :: history)) - 1)
        with (Z.of_nat (length history)) by (cbn [length]; lia).
      apply aget_fin; [done | cbn; lia]. }
    destruct (is_fin_inv _ Hl) as [q ->].
    split.
    + rewrite (histogram_sign q q). apply ltb_irrefl.
    + intros _. rewrite sub_fin.
      assert (Hz : (q - q)%Qc = Q2Qc 0) by ring. rewrite Hz.
      repeat split; apply Fin_ext; reflexivity.
Qed.

Lemma checkCondition_macd_short_witness :
  checkCondition no_sqrt (indicatorCondition MACD CrossesAbove 0 (Some Tf1h)) 12
    (map ofZ [10; 11; 12])
  = false
  /\ (map ofZ [10; 11; 12] <> [] ->
      macd (calculateMACD (map ofZ [10; 11; 12])) = 0
      /\ signal (calculateMACD (map ofZ [10; 11; 12])) = 0
      /\ histogram (calculateMACD (map ofZ [10; 11; 12])) = 0).
Proof.
  apply checkCondition_macd_short; [repeat constructor | simpl; lia].
Defined.

Lemma length_slice_init {A} (a : list A) :
  length (slice a 0 (-1)) = (length a - 1)%nat.
Proof.
  unfold slice. change 0 with (Z.of_nat 0). change (-1) with (- Z.of_nat 1).
  rewrite relIndex_nat, relIndex_neg by done. cbn [Nat.min drop].
  rewrite length_take, length_drop. lia.
Qed.

(** X10.  On fewer than 15 samples calculateRSI is the neutral 50, so an
    RSI condition compares 50 with its value: "<" holds exactly when
    50 < value, ">" exactly when value < 50, and the two crossing
    conditions never hold. *)
Theorem checkCondition_rsi_short (Math_sqrt : num -> num)
    (history : list num) (v currentPrice : num) (tf : option Timeframe) :
  (length history < 15)%nat ->
  let check op :=
    checkCondition Math_sqrt (indicatorCondition RSI op v tf) currentPrice history in
  check CLt = (50 <? v)%num
  /\ check CGt = (v <? 50)%num
  /\ check CrossesAbove = false
  /\ check CrossesBelow = false
  /\ check CEq = false.
Proof.
  intros Hlen check. subst check. unfold checkCondition, indicatorCondition.
  cbn [type indicator condition value].
  assert (H50 : calculateRSI history 14 = 50).
  { unfold calculateRSI.
    destruct (Nat.ltb_spec (length history) (14 + 1)); [done | lia]. }
  assert (H50' : calculateRSI (slice history 0 (-1)) 14 = 50).
  { unfold calculateRSI.
    destruct (Nat.ltb_spec (length (slice history 0 (-1))) (14 + 1)); [done|].
    rewrite length_slice_init in *. lia. }
  rewrite H50, H50'. unfold gtb.
  repeat split.
  - destruct (50 <? v)%num eqn:E; [|done]. by rewrite (ltb_asym _ _ E).
  - destruct (v <? 50)%num eqn:E; [|done]. by rewrite (ltb_asym _ _ E).
Qed.

Lemma checkCondition_rsi_short_witness :
  let check op :=
    checkCondition no_sqrt (indicatorCondition RSI op 70 None) 5
      (map ofZ [1; 2; 3]) in
  check CLt = (50 <? 70)%num
  /\ check CGt = (70 <? 50)%num
  /\ check CrossesAbove = false
  /\ check CrossesBelow = false
  /\ check CEq = false.
Proof. apply checkCondition_rsi_short. simpl. lia. Defined.

(** X11.  The crossing conditions of the RSI exclude each other, and a
    crossing above a value implies that the RSI is above it: on one
    history and one value, "crosses_above" and "crosses_below" never both
    hold, and "crosses_above" implies ">". *)
Theorem checkCondition_rsi_crossing (Math_sqrt : num -> num)
    (history : list num) (v currentPrice : num) (tf : option Timeframe) :
  let check op :=
    checkCondition Math_sqrt (indicatorCondition RSI op v tf) currentPrice history in
  check CrossesAbove = true ->
  check CGt = true /\ check CrossesBelow = false /\ check CLt = false.
Proof.
  intros check. subst check. unfold checkCondition, indicatorCondition.
  cbn [type indicator condition value]. unfold gtb.
  intros H. apply andb_prop in H as [Hprev Hnow].
  split; [done|]. rewrite (ltb_asym _ _ Hnow).
  split; [apply andb_false_r | done].
Qed.

Lemma checkCondition_rsi_crossing_witness :
  let history := map ofZ [9; 8; 7; 6; 5; 4; 3; 2; 1; 1; 1; 1; 1; 1; 1; 40] in
  let check op :=
    checkCondition no_sqrt (indicatorCondition RSI op 30 None) 40 history in
  check CrossesAbove = true
  /\ check CGt = true /\ check CrossesBelow = false /\ check CLt = false.
Proof.
  intros history check.
  assert (H : check CrossesAbove = true) by (vm_compute; reflexivity).
  split; [exact H|].
  exact (checkCondition_rsi_crossing no_sqrt history 30 40 None H).
Defined.

(** ** Bollinger bands *)





(** ** The trade ledger *)

Lemma getTrades_recordTrade (st : ledgers) (t : Trade) (strategyName : str) :
  getTrades (recordTrade st t) strategyName
  = getTrades st strategyName
    ++ (if decide (strategy t = strategyName) then [t] else []).
Proof.
  unfold getTrades, recordTrade.
  destruct (decide (strategy t = strategyName)) as [<-|Hne].
  - rewrite lookup_insert_eq. cbn [default].
    destruct (st !! strategy t) eqn:E; [by rewrite E|].
    by rewrite lookup_insert_eq.
  - rewrite lookup_insert_ne by done. rewrite app_nil_r.
    destruct (st !! strategy t); [done|]. by rewrite lookup_insert_ne.
Qed.

(** X13.  Recording and reading back: after any sequence of recordTrade
    calls on a new tracker, getTrades returns for each strategy exactly
    its trades, in the order they were recorded, and the empty array for
    a strategy that never traded. *)
Theorem getTrades_recordAll (trades : list Trade) (strategyName : str) :
  getTrades (recordAll trades) strategyName
  = filter (fun t => strategy t = strategyName) trades.
Proof.
  induction trades as [|t trades IH] using rev_ind.
  - unfold recordAll, getTrades. cbn. by rewrite lookup_empty.
  - unfold recordAll in *. rewrite fold_left_app. cbn [fold_left].
    rewrite getTrades_recordTrade, IH, filter_app, filter_cons, filter_nil.
    by destruct (decide (strategy t = strategyName)).
Qed.

Lemma natQc_le (a b : nat) : (a <= b)%nat -> (natQc a <= natQc b)%Qc.
Proof. intros H. unfold natQc. qc2q. unfold Qle. cbn. lia. Qed.

Lemma winningPairs_le (trades : list Trade) :
  (winningPairs trades <= length trades / 2)%nat.
Proof.
  rewrite <- length_indexPairs. unfold winningPairs, pairPnls.
  etrans; [apply length_filter|]. rewrite length_fmap. apply length_filter.
Qed.

(** X14.  The win rate is a percentage for every ledger, whatever the
    prices and amounts of its trades (NaN and infinities included): it
    lies between 0 and 100. *)
Theorem winRate_range (Math_sqrt : num -> num) (st : ledgers)
    (strategyName : str) :
  let perf := calculatePerformance Math_sqrt st strategyName in
  le 0 (winRate perf) /\ le (winRate perf) 100.
Proof.
  intros perf. subst perf. unfold calculatePerformance.
  destruct (performanceOf_pairs Math_sqrt strategyName
              (default [] (st !! strategyName))) as [_ ->].
  pose proof (winningPairs_le (default [] (st !! strategyName))) as Hw.
  destruct (Nat.ltb_spec 0 (length (default [] (st !! strategyName)) / 2))
    as [Hp|Hp]; [|by split].
  generalize dependent (length (default [] (st !! strategyName)) / 2)%nat.
  generalize (winningPairs (default [] (st !! strategyName))).
  intros w p Hw Hp. rewrite !ofNat_fin. unfold ofZ, ofQ. cbn [mul].
  rewrite div_fin by by apply natQc_nonzero.
  pose proof (natQc_le w p Hw) as Hwp. pose proof (natQc_le 0 w ltac:(lia)) as Hw0.
  pose proof (natQc_pos p Hp) as Hpp. change (natQc 0) with (Q2Qc 0) in Hw0.
  split; apply le_fin; qc2q.
  - apply Qle_shift_div_l; [done|]. lra.
  - apply Qle_shift_div_r; [done|]. lra.
Qed.






(** ** The strategy page *)

Import StrategyPage.

(** X16.  One call of checkStrategyConditions requests at most one
    trade; none on a history of fewer than 20 samples; a buy only while
    no trade exists at all, and a sell only when the latest trade is a
    buy. *)
Theorem checkStrategyConditions_calls (Math_sqrt : num -> num)
    (trades : list Trade) (strat : ParsedStrategy) (currentPrice : num)
    (history : list num) :
  let calls := checkStrategyConditions Math_sqrt trades strat currentPrice history in
  (calls = [] \/ calls = [Buy] \/ calls = [Sell])
  /\ ((length history < 20)%nat -> calls = [])
  /\ (Buy ∈ calls ->
      trades = []
      /\ checkCondition Math_sqrt (entry strat) currentPrice history = true)
  /\ (Sell ∈ calls ->
      (exists t, last trades = Some t /\ side t = Buy)
      /\ checkCondition Math_sqrt (exit strat) currentPrice history = true).
Proof.
  intros calls. subst calls. unfold checkStrategyConditions.
  destruct (Nat.ltb_spec (length history) 20) as [Hshort|Hlong].
  { split; [by left|]. split; [done|]. split; intros H; by apply elem_of_nil in H. }
  destruct trades as [|t0 trades].
  - cbn [length Nat.eqb Nat.ltb Nat.leb andb]. rewrite andb_true_r, app_nil_r.
    destruct (checkCondition Math_sqrt (entry strat) currentPrice history).
    + split; [right; by left|]. split; [intros; lia|].
      split; [done|]. intros H. apply list_elem_of_singleton in H. discriminate.
    + split; [by left|]. split; [intros; lia|].
      split; intros H; by apply elem_of_nil in H.
  - cbn [length Nat.eqb]. rewrite andb_false_r. cbn [app].
    change (0 <? S (length trades))%nat with true. cbn [andb].
    destruct (last (t0 :: trades)) as [t|] eqn:Hlast;
      [|split; [by left|]; split; [intros; lia|];
        split; intros H; by apply elem_of_nil in H].
    unfold isBuy. destruct (side t) eqn:Hside;
      [|split; [by left|]; split; [intros; lia|];
        split; intros H; by apply elem_of_nil in H].
    destruct (checkCondition Math_sqrt (exit strat) currentPrice history).
    + split; [right; by right|]. split; [intros; lia|]. split.
      * intros H. apply list_elem_of_singleton in H. discriminate.
      * intros _. split; [by exists t | done].
    + split; [by left|]. split; [intros; lia|].
      split; intros H; by apply elem_of_nil in H.
Qed.

Lemma checkStrategyConditions_calls_witness :
  let strat := StrategyParser.parseStrategy (lit "Buy SOL when price drops 5%") in
  let history := map ofZ [100; 100; 100; 100; 100; 100; 100; 100; 100; 100;
                          100; 100; 100; 100; 100; 100; 100; 100; 100; 94] in
  checkStrategyConditions no_sqrt [] strat 94 history = [Buy]
  /\ checkStrategyConditions no_sqrt [] strat 94 (take 19 history) = []
  /\ checkCondition no_sqrt (entry strat) 94 history = true.
Proof.
  intros strat history.
  pose proof (checkStrategyConditions_calls no_sqrt [] strat 94 history)
    as (_ & _ & Hbuy & _).
  pose proof (checkStrategyConditions_calls no_sqrt [] strat 94 (take 19 history))
    as (_ & Hshort & _).
  assert (Hcalls : checkStrategyConditions no_sqrt [] strat 94 history = [Buy])
    by (vm_compute; reflexivity).
  split; [exact Hcalls|]. split; [apply Hshort; simpl; lia|].
  apply Hbuy. rewrite Hcalls. left.
Defined.






(** ** Sorting *)

Import RebalancingEngine YieldQueries.

Lemma insertSorted_perm {A} (cmp : A -> A -> num) (x : A) (l : list A) :
  insertSorted cmp x l ≡ₚ x :: l.
Proof.
  induction l as [|y l IH]; cbn [insertSorted]; [done|].
  destruct (cmp y x >? 0)%num; [done|].
  rewrite IH. apply Permutation_swap.
Qed.

Lemma sortBy_perm {A} (cmp : A -> A -> num) (l : list A) : sortBy cmp l ≡ₚ l.
Proof.
  unfold sortBy.
  assert (H : forall acc, fold_left (fun acc x => insertSorted cmp x acc) l acc
                          ≡ₚ l ++ acc).
  { induction l as [|x l IH]; intros acc; cbn [fold_left]; [done|].
    rewrite IH, insertSorted_perm. symmetry. apply Permutation_middle. }
  by rewrite H, app_nil_r.
Qed.

(** Sorting by a finite key in descending order. *)
Section SortByKey.
Context {A : Type} (key : A -> num).

Lemma insertSorted_sorted (x : A) (l : list A) :
  is_fin (key x) -> Forall (fun y => is_fin (key y)) l ->
  StronglySorted (keyGe key) l ->
  StronglySorted (keyGe key) (insertSorted (fun a b => (key b - key a)%num) x l).
Proof.
  intros Hx Hl Hs. induction Hs as [|y l Hs IH Hy]; cbn [insertSorted].
  - repeat constructor.
  - inversion Hl as [|? ? Hfy Hl']; subst.
    destruct (is_fin_inv _ Hx) as [kx Ekx], (is_fin_inv _ Hfy) as [ky Eky].
    rewrite Ekx, Eky. unfold gtb. cbn [sub add neg ltb ofZ ofQ].
    destruct (Qc_ltb _ _) eqn:E.
    + apply Qc_ltb_lt in E.
      assert (Hxy : keyGe key x y).
      { unfold keyGe. rewrite Ekx, Eky. apply le_fin. qc2q. lra. }
      constructor; [by constructor|]. constructor; [done|].
      rewrite Forall_forall in Hy, Hl'. apply Forall_forall. intros z Hz.
      pose proof (Hy z Hz) as Hyz. unfold keyGe in *.
      destruct (is_fin_inv _ (Hl' z Hz)) as [kz Ekz].
      rewrite Ekx, Eky, Ekz in *. apply le_fin in Hyz, Hxy. apply le_fin.
      qc2q. lra.
    + apply Qc_ltb_ge in E. constructor; [by apply IH|].
      rewrite insertSorted_perm. constructor; [|done].
      unfold keyGe. rewrite Ekx, Eky. apply le_fin. qc2q. lra.
Qed.

Lemma sortBy_sorted (l : list A) :
  Forall (fun y => is_fin (key y)) l ->
  StronglySorted (keyGe key) (sortBy (fun a b => (key b - key a)%num) l).
Proof.
  intros Hl. unfold sortBy.
  assert (H : forall acc,
             Forall (fun y => is_fin (key y)) acc -> StronglySorted (keyGe key) acc ->
             StronglySorted (keyGe key)
               (fold_left (fun acc x => insertSorted (fun a b => (key b - key a)%num) x acc)
                          l acc)).
  { induction Hl as [|x l Hx _ IH]; intros acc Hacc Hs; cbn [fold_left]; [done|].
    apply IH; [|by apply insertSorted_sorted].
    rewrite insertSorted_perm. by constructor. }
  apply H; constructor.
Qed.
End SortByKey.

(** X18.  getTopYields on a table of yields with finite APYs returns
    [min(limit, size)] yields in descending order of APY; together with
    the yields left out they are the table, and no yield left out has a
    higher APY than a yield returned. *)
Theorem topYieldsOf_spec (yields : list ProtocolYield) (limit : nat) :
  Forall (fun y => is_fin (apy y)) yields ->
  let top := topYieldsOf yields limit in
  length top = Nat.min limit (length yields)
  /\ StronglySorted apyGe top
  /\ exists rest, top ++ rest ≡ₚ yields
                  /\ forall t r, t ∈ top -> r ∈ rest -> le (apy r) (apy t).
Proof.
  intros Hfin top. subst top. unfold topYieldsOf. rewrite slice_prefix.
  pose proof (sortBy_sorted apy yields Hfin) as Hs.
  change (fun a b => (apy b - apy a)%num) with byApyDesc in Hs.
  change (keyGe apy) with apyGe in Hs.
  rewrite <- (take_drop limit (sortBy byApyDesc yields)) in Hs.
  apply StronglySorted_app in Hs as (Hcross & Htop & _).
  split; [by rewrite length_take, sortBy_perm|]. split; [done|].
  exists (drop limit (sortBy byApyDesc yields)).
  split; [by rewrite take_drop, sortBy_perm|].
  intros t r Ht Hr. by apply Hcross.
Qed.

Lemma topYieldsOf_spec_witness :
  let top := getTopYields 3 in
  length top = 3%nat
  /\ StronglySorted apyGe top
  /\ map pool top = [lit "SOL Multiply"; lit "JitoSOL Multiply"; lit "JLP Pool"].
Proof.
  intros top.
  assert (Hfin : Forall (fun y => is_fin (apy y)) YieldAggregator.getAllYields)
    by (repeat constructor).
  pose proof (topYieldsOf_spec YieldAggregator.getAllYields 3 Hfin) as (H1 & H2 & _).
  split; [exact H1|]. split; [exact H2|]. vm_compute. reflexivity.
Defined.

(** ** Which positions are recommended for, and to what *)

Lemma bool_ext (a b : bool) : (a = true <-> b = true) -> a = b.
Proof.
  destruct a, b; intros [H1 H2]; try done.
  - symmetry. by apply H1.
  - by apply H2.
Qed.

Lemma existsb_elem_of {A} (f : A -> bool) (l : list A) :
  existsb f l = true <-> exists x, x ∈ l /\ f x = true.
Proof.
  rewrite existsb_exists. split; intros (x & H1 & H2); exists x; split;
    try done; by apply list_elem_of_In.
Qed.

Lemma find_held (allYields : list ProtocolYield) (p : Position) :
  match find (fun y => str_eqb (protocolName (protocol y)) (posProtocol p)
                       && str_eqb (pool y) (posPool p)) allYields with
  | Some _ => true
  | None => false
  end = held allYields p.
Proof.
  unfold held. induction allYields as [|y l IH]; [done|]. cbn [find existsb].
  destruct (_ && _); [done | exact IH].
Qed.

(** The scan of the ranked list stops at the first yield that qualifies. *)
Lemma firstBetter_first (position : Position) (ranked : list ProtocolYield) :
  match firstBetter position ranked with
  | Some r =>
      from r = position
      /\ qualifies position (to r) = true
      /\ exists l1 l2, ranked = l1 ++ to r :: l2
                       /\ Forall (fun y => qualifies position y = false) l1
  | None => Forall (fun y => qualifies position y = false) ranked
  end.
Proof.
  induction ranked as [|y ranked IH]; cbn [firstBetter]; [constructor|].
  fold (qualifies position y). destruct (qualifies position y) eqn:E.
  - cbn [from to]. split; [done|]. split; [done|].
    exists [], ranked. split; [done | constructor].
  - destruct (firstBetter position ranked) as [r|].
    + destruct IH as (Hf & Hq & l1 & l2 & -> & Hl1).
      split; [done|]. split; [done|].
      exists (y :: l1), l2. split; [done | by constructor].
    + by constructor.
Qed.

Lemma ranked_perm (allYields : list ProtocolYield) (t : RiskTolerance)
    (cmp : ProtocolYield -> ProtocolYield -> num) (y : ProtocolYield) :
  y ∈ sortBy cmp (filter (fun y => existsb (risk_eqb (risk y)) (targetRisks t) = true)
                         allYields)
  <-> y ∈ allYields /\ eligibleFor t y = true.
Proof.
  rewrite sortBy_perm, list_elem_of_filter. unfold eligibleFor. tauto.
Qed.

Lemma analyze_fold (Q : RebalanceRecommendation -> Prop) (keep : Position -> bool)
    (step : list RebalanceRecommendation -> Position -> list RebalanceRecommendation)
    (positions : list Position) (acc : list RebalanceRecommendation) :
  (forall recs p,
      (keep p = false /\ step recs p = recs)
      \/ (keep p = true /\ exists r, step recs p = recs ++ [r] /\ from r = p /\ Q r)) ->
  exists added,
    fold_left step positions acc = acc ++ added
    /\ Forall Q added
    /\ map from added = filter (fun p => keep p = true) positions.
Proof.
  intros Hstep. revert acc.
  induction positions as [|p positions IH]; intros acc; cbn [fold_left].
  - exists []. by rewrite app_nil_r.
  - rewrite filter_cons.
    destruct (Hstep acc p) as [[Hk ->] | (Hk & r & -> & Hfrom & HQ)].
    + destruct (IH acc) as (added & -> & Hall & Hmap).
      exists added. rewrite decide_False by (rewrite Hk; done). done.
    + destruct (IH (acc ++ [r])) as (added & -> & Hall & Hmap).
      exists (r :: added). rewrite <- app_assoc, decide_True by done.
      split; [done|]. split; [by constructor|]. cbn [map]. by rewrite Hfrom, Hmap.
Qed.

Lemma analyzeWith_exact (allYields : list ProtocolYield)
    (positions : list Position) (t : RiskTolerance) :
  let ranked :=
    sortBy (fun a b => (calculateRiskAdjustedReturn b
                        - calculateRiskAdjustedReturn a)%num)
      (filter (fun y => existsb (risk_eqb (risk y)) (targetRisks t) = true)
              allYields) in
  let recs := analyzeWith allYields positions t in
  map from recs = filter (fun p => recommendable allYields t p = true) positions
  /\ Forall (fun r => firstBetter (from r) ranked = Some r) recs.
Proof.
  intros ranked recs. subst recs. unfold analyzeWith. fold ranked.
  match goal with
  | |- context [fold_left ?f positions []] => set (step := f)
  end.
  assert (Hstep : forall recs p,
    (recommendable allYields t p = false /\ step recs p = recs)
    \/ (recommendable allYields t p = true
        /\ exists r, step recs p = recs ++ [r] /\ from r = p
                     /\ firstBetter (from r) ranked = Some r)).
  { intros recs p. subst step. cbv beta. unfold recommendable.
    rewrite <- find_held.
    destruct (find _ allYields); [|left; by split]. cbn [andb].
    assert (Hex : existsb (fun y => eligibleFor t y && qualifies p y) allYields
                  = match firstBetter p ranked with
                    | Some _ => true
                    | None => false
                    end).
    { apply bool_ext. rewrite existsb_elem_of.
      pose proof (firstBetter_first p ranked) as Hfb.
      destruct (firstBetter p ranked) as [r|].
      - destruct Hfb as (_ & Hq & l1 & l2 & Hr & _). split; [done|]. intros _.
        exists (to r). assert (Hin : to r ∈ ranked).
        { rewrite Hr. apply elem_of_app. right. left. }
        apply ranked_perm in Hin as [Hin Hel]. split; [done|]. by rewrite Hel, Hq.
      - split; [|done]. intros (y & Hin & Hy). apply andb_prop in Hy as [Hel Hq].
        assert (Hin' : y ∈ ranked) by by apply ranked_perm.
        rewrite Forall_forall in Hfb. rewrite (Hfb y Hin') in Hq. discriminate. }
    rewrite Hex. pose proof (firstBetter_first p ranked) as Hfb.
    destruct (firstBetter p ranked) as [r|] eqn:E; [|left; by split].
    right. split; [done|]. exists r. destruct Hfb as (Hf & _).
    split; [done|]. split; [done|]. by rewrite Hf. }
  destruct (analyze_fold _ _ step positions [] Hstep) as (added & -> & Hall & Hmap).
  by split.
Qed.

(** X19.  analyzePositions recommends for exactly the positions that are
    held in a pool of the table and for which some yield permitted by the
    risk tolerance qualifies (APY more than 5 points higher, on another
    protocol), once each and in the order of the input; every target is a
    yield of the table with a permitted risk level. *)
Theorem analyzeWith_recommendable (allYields : list ProtocolYield)
    (positions : list Position) (t : RiskTolerance) :
  let recs := analyzeWith allYields positions t in
  map from recs = filter (fun p => recommendable allYields t p = true) positions
  /\ Forall (fun r => to r ∈ allYields /\ eligibleFor t (to r) = true) recs.
Proof.
  intros recs. subst recs.
  destruct (analyzeWith_exact allYields positions t) as [Hmap Hall].
  cbv zeta in Hmap, Hall. split; [exact Hmap|].
  eapply Forall_impl; [exact Hall|]. cbn. intros r Hr.
  match type of Hr with
  | firstBetter _ ?rk = _ => pose proof (firstBetter_first (from r) rk) as Hfb
  end.
  rewrite Hr in Hfb. destruct Hfb as (_ & _ & l1 & l2 & Heq & _).
  eapply (ranked_perm allYields t). rewrite Heq. apply elem_of_app. right. left.
Qed.

(** X20.  The target of a recommendation is the best qualifying one:
    when the risk-adjusted returns of the table are finite, no permitted
    yield of the table that qualifies for the position has a higher
    risk-adjusted return than the target recommended. *)
Theorem analyzeWith_best (allYields : list ProtocolYield)
    (positions : list Position) (t : RiskTolerance) :
  Forall (fun y => is_fin (calculateRiskAdjustedReturn y)) allYields ->
  Forall (fun r =>
            forall y, y ∈ allYields -> eligibleFor t y = true ->
                      qualifies (from r) y = true ->
                      le (calculateRiskAdjustedReturn y)
                         (calculateRiskAdjustedReturn (to r)))
         (analyzeWith allYields positions t).
Proof.
  intros Hfin.
  destruct (analyzeWith_exact allYields positions t) as [_ Hall].
  cbv zeta in Hall. eapply Forall_impl; [exact Hall|]. cbn.
  intros r Hr y Hy Hel Hq.
  set (eligible := filter (fun y => existsb (risk_eqb (risk y)) (targetRisks t) = true)
                          allYields) in *.
  assert (Hfin' : Forall (fun y => is_fin (calculateRiskAdjustedReturn y)) eligible).
  { subst eligible. apply Forall_forall. intros z Hz.
    apply list_elem_of_filter in Hz as [_ Hz].
    rewrite Forall_forall in Hfin. by apply Hfin. }
  pose proof (sortBy_sorted calculateRiskAdjustedReturn eligible Hfin') as Hs.
  match type of Hr with
  | firstBetter _ ?rk = _ => pose proof (firstBetter_first (from r) rk) as Hfb
  end.
  rewrite Hr in Hfb. destruct Hfb as (_ & _ & l1 & l2 & Heq & Hl1).
  assert (Hin : y ∈ l1 ++ to r :: l2).
  { rewrite <- Heq. subst eligible. by apply ranked_perm. }
  rewrite Heq in Hs. apply StronglySorted_app in Hs as (_ & _ & Hs).
  apply StronglySorted_cons in Hs as [Hs _].
  apply elem_of_app in Hin as [Hin|Hin].
  - rewrite Forall_forall in Hl1. rewrite (Hl1 y Hin) in Hq. discriminate.
  - apply elem_of_cons in Hin as [->|Hin].
    + rewrite Forall_forall in Hfin.
      destruct (is_fin_inv _ (Hfin _ Hy)) as [q ->]. apply le_fin, Qcle_refl.
    + rewrite Forall_forall in Hs. by apply Hs.
Qed.

Lemma table_rar_fin :
  Forall (fun y => is_fin (calculateRiskAdjustedReturn y))
         YieldAggregator.getAllYields.
Proof.
  assert (H : forallb (fun y => match calculateRiskAdjustedReturn y with
                                | Fin _ => true
                                | _ => false
                                end) YieldAggregator.getAllYields = true)
    by (vm_compute; reflexivity).
  apply Forall_forall. intros y Hy. apply list_elem_of_In in Hy.
  pose proof (proj1 (forallb_forall _ _) H y Hy) as Hb. cbv beta in Hb.
  by destruct (calculateRiskAdjustedReturn y).
Defined.

Lemma analyzeWith_best_witness :
  let marinade := {| posProtocol := lit "Marinade"; posPool := lit "mSOL Stake Pool";
                     posAmount := 10; posValue := 1500; posApy := ofQ (78 # 10) |} in
  Forall (fun r =>
            forall y, y ∈ YieldAggregator.getAllYields ->
                      eligibleFor Balanced y = true ->
                      qualifies (from r) y = true ->
                      le (calculateRiskAdjustedReturn y)
                         (calculateRiskAdjustedReturn (to r)))
         (analyzePositions [marinade] Balanced).
Proof.
  intros marinade. apply analyzeWith_best. exact table_rar_fin.
Defined.

(** ** Risk score and risk-adjusted return *)

Lemma Qc_max_mono (c f1 f2 : Qc) :
  (f2 <= f1)%Qc ->
  ((if Qc_ltb c f2 then f2 else c) <= (if Qc_ltb c f1 then f1 else c))%Qc.
Proof.
  intros H. destruct (Qc_ltb c f2) eqn:E2, (Qc_ltb c f1) eqn:E1;
    try apply Qc_ltb_lt in E2; try apply Qc_ltb_ge in E2;
    try apply Qc_ltb_lt in E1; try apply Qc_ltb_ge in E1.
  - done.
  - by apply Qcle_trans with f1.
  - by apply Qclt_le_weak.
  - apply Qcle_refl.
Qed.

Lemma Qc_min_mono (c r1 r2 : Qc) :
  (r2 <= r1)%Qc ->
  ((if Qc_ltb r2 c then r2 else c) <= (if Qc_ltb r1 c then r1 else c))%Qc.
Proof.
  intros H. destruct (Qc_ltb r2 c) eqn:E2, (Qc_ltb r1 c) eqn:E1;
    try apply Qc_ltb_lt in E2; try apply Qc_ltb_ge in E2;
    try apply Qc_ltb_lt in E1; try apply Qc_ltb_ge in E1.
  - done.
  - by apply Qclt_le_weak.
  - by apply Qcle_trans with r2.
  - apply Qcle_refl.
Qed.

(** The score as a rational, for a finite TVL that is not negative. *)
Lemma calculateRiskScore_fin (y : ProtocolYield) (t : Qc) :
  tvl y = Fin t -> (Q2Qc 0 <= t)%Qc ->
  exists b a f s : Qc,
    riskMap (risk y) = Fin b
    /\ (if (apy y >? 100)%num then ofZ 15 else ofZ 0) = Fin a
    /\ (Q2Qc 0 <= a)%Qc
    /\ f = (Q2Qc 20 - t / Q2Qc 10000000)%Qc
    /\ s = (b + (if Qc_ltb (Q2Qc 0) f then f else Q2Qc 0) + a)%Qc
    /\ calculateRiskScore y = Fin (if Qc_ltb s (Q2Qc 100) then s else Q2Qc 100).
Proof.
  intros Ht Ht0.
  assert (Hb : exists b, riskMap (risk y) = Fin b) by (destruct (risk y); cbn; eauto).
  destruct Hb as [b Hb].
  assert (Ha : exists a, (if (apy y >? 100)%num then ofZ 15 else ofZ 0) = Fin a
                         /\ (Q2Qc 0 <= a)%Qc).
  { destruct (apy y >? 100)%num; eexists; (split; [reflexivity|]); done. }
  destruct Ha as (a & Ha & Ha0).
  exists b, a, (Q2Qc 20 - t / Q2Qc 10000000)%Qc. eexists.
  split; [done|]. split; [done|]. split; [done|]. split; [done|].
  split; [reflexivity|].
  unfold calculateRiskScore. rewrite Hb, Ha, Ht.
  unfold ofZ, ofQ. rewrite div_fin by done. cbn [sub add neg].
  rewrite max_fin. cbn [add]. rewrite min_fin. reflexivity.
Qed.

(** X21.  For a yield with a finite TVL that is not negative, the risk
    score is never below the base score of its risk class (20, 50, 80)
    and never above 100; so the risk-adjusted return of a yield with an
    APY that is not negative lies between half the APY and the APY. *)
Theorem calculateRiskAdjustedReturn_range (y : ProtocolYield) (t a : Qc) :
  tvl y = Fin t -> (Q2Qc 0 <= t)%Qc -> apy y = Fin a -> (Q2Qc 0 <= a)%Qc ->
  le (riskMap (risk y)) (calculateRiskScore y)
  /\ le (calculateRiskScore y) 100
  /\ le (apy y / 2)%num (calculateRiskAdjustedReturn y)
  /\ le (calculateRiskAdjustedReturn y) (apy y).
Proof.
  intros Ht Ht0 Hapy Ha0.
  destruct (calculateRiskScore_fin y t Ht Ht0)
    as (b & af & f & s & Hb & _ & Haf & -> & -> & Hscore).
  assert (Hb20 : (Q2Qc 20 <= b)%Qc /\ (b <= Q2Qc 80)%Qc).
  { destruct (risk y); cbn in Hb; injection Hb as <-; split; done. }
  destruct Hb20 as [Hb20 Hb80].
  unfold calculateRiskAdjustedReturn. rewrite Hscore, Hb, Hapy. clear Hscore Hb Hapy Ht.
  set (f := (Q2Qc 20 - t / Q2Qc 10000000)%Qc) in *.
  set (raw := (b + (if Qc_ltb (Q2Qc 0) f then f else Q2Qc 0) + af)%Qc).
  assert (Hraw : (b <= raw)%Qc).
  { subst raw. destruct (Qc_ltb (Q2Qc 0) f) eqn:E.
    - apply Qc_ltb_lt in E. qc2q. lra.
    - qc2q. lra. }
  set (s := if Qc_ltb raw (Q2Qc 100) then raw else Q2Qc 100).
  assert (Hs : (b <= s)%Qc /\ (s <= Q2Qc 100)%Qc).
  { subst s. destruct (Qc_ltb raw (Q2Qc 100)) eqn:E.
    - apply Qc_ltb_lt in E. split; [done | by apply Qclt_le_weak].
    - split; [qc2q; lra | apply Qcle_refl]. }
  destruct Hs as [Hs1 Hs2]. clearbody s. clear raw Hraw f.
  split; [by apply le_fin|]. split; [by apply le_fin|].
  unfold ofZ, ofQ. rewrite (div_fin s) by done. cbn [add].
  assert (Hd : (Q2Qc 1 <= Q2Qc (inject_Z 1) + s / Q2Qc (inject_Z 100))%Qc
               /\ (Q2Qc (inject_Z 1) + s / Q2Qc (inject_Z 100) <= Q2Qc 2)%Qc).
  { split; qc2q; change (/ 100)%Q with (1 # 100)%Q; lra. }
  destruct Hd as [Hd1 Hd2].
  generalize dependent (Q2Qc (inject_Z 1) + s / Q2Qc (inject_Z 100))%Qc.
  intros d Hd1 Hd2.
  assert (Hdpos : (Q2Qc 0 < d)%Qc) by (qc2q; lra).
  rewrite !div_fin by (done || by apply Qc_pos_nonzero).
  split; apply le_fin; qc2q.
  - apply Qle_shift_div_l; [done|]. change (/ 2)%Q with (1 # 2)%Q. nra.
  - apply Qle_shift_div_r; [done|]. nra.
Qed.

Lemma calculateRiskAdjustedReturn_range_witness :
  let y := YieldAggregator.mk Kamino "SOL Multiply" (892 # 10) 78000000 High "SOL" "K" in
  le (riskMap (risk y)) (calculateRiskScore y)
  /\ le (calculateRiskScore y) 100
  /\ le (apy y / 2)%num (calculateRiskAdjustedReturn y)
  /\ le (calculateRiskAdjustedReturn y) (apy y).
Proof.
  intros y.
  apply (calculateRiskAdjustedReturn_range y (Q2Qc 78000000) (Q2Qc (892 # 10)));
    reflexivity || (vm_compute; discriminate).
Defined.

(** X22.  A larger pool never scores as riskier: of two yields with the
    same risk class and APY, the one with the larger (finite,
    nonnegative) TVL has a risk score that is not greater. *)
Theorem calculateRiskScore_tvl_monotone (y1 y2 : ProtocolYield) (t1 t2 : Qc) :
  risk y1 = risk y2 -> apy y1 = apy y2 ->
  tvl y1 = Fin t1 -> tvl y2 = Fin t2 ->
  (Q2Qc 0 <= t1)%Qc -> (t1 <= t2)%Qc ->
  le (calculateRiskScore y2) (calculateRiskScore y1).
Proof.
  intros Hr Ha Ht1 Ht2 H0 H12.
  assert (H02 : (Q2Qc 0 <= t2)%Qc) by (qc2q; lra).
  destruct (calculateRiskScore_fin y1 t1 Ht1 H0)
    as (b1 & a1 & f1 & s1 & Hb1 & Ha1 & _ & -> & -> & ->).
  destruct (calculateRiskScore_fin y2 t2 Ht2 H02)
    as (b2 & a2 & f2 & s2 & Hb2 & Ha2 & _ & -> & -> & ->).
  rewrite <- Hr, Hb1 in Hb2. injection Hb2 as <-.
  rewrite <- Ha, Ha1 in Ha2. injection Ha2 as <-.
  clear Hr Ha Ht1 Ht2 Hb1 Ha1 y1 y2.
  apply le_fin, Qc_min_mono.
  apply Qcplus_le_compat; [|apply Qcle_refl].
  apply Qcplus_le_compat; [apply Qcle_refl|].
  apply Qc_max_mono. unfold Qcminus, Qcdiv.
  apply Qcplus_le_compat; [apply Qcle_refl|].
  apply Qcopp_le_compat, Qcmult_le_compat_r; [done|].
  vm_compute. discriminate.
Qed.

Lemma calculateRiskScore_tvl_monotone_witness :
  let y1 := YieldAggregator.mk Raydium "RAY-SOL" (456 # 10) 89000000 Medium "RAY-LP" "R" in
  let y2 := YieldAggregator.mk Raydium "RAY-SOL" (456 # 10) 150000000 Medium "RAY-LP" "R" in
  le (calculateRiskScore y2) (calculateRiskScore y1).
Proof.
  intros y1 y2.
  apply (calculateRiskScore_tvl_monotone y1 y2 (Q2Qc 89000000) (Q2Qc 150000000));
    reflexivity || (vm_compute; discriminate).
Defined.

(** ** Portfolio allocation *)







(** A class without any yield receives nothing: its weight is divided by
    0, but the quotient is never used. *)
Example allocateWith_no_high :
  let table := filter (fun y => risk_eqb (risk y) High = false)
                      YieldAggregator.getAllYields in
  totalAllocated (allocateWith table (Fin (Q2Qc 1000)) Aggressive)
  = Fin (Q2Qc 600).
Proof. vm_compute. apply Fin_ext. reflexivity. Qed.

(** ** Isolation of the price histories *)

(** X24.  The histories of different assets do not interfere: the
    history of an asset after a sequence of calls is the history after
    the calls for that asset alone, and it is empty when no call named
    the asset. *)
Theorem runUpdates_isolated (calls : list (str * num)) (asset : str) :
  getPriceHistory (runUpdates calls) asset
  = getPriceHistory (runUpdates (filter (fun call => fst call = asset) calls)) asset
  /\ (Forall (fun call => fst call <> asset) calls ->
      getPriceHistory (runUpdates calls) asset = []).
Proof.
  rewrite !runUpdates_history. unfold pricesFor. split.
  - f_equal. f_equal. symmetry. apply filter_all.
    apply Forall_forall. intros c Hc. by apply list_elem_of_filter in Hc as [? _].
  - intros Hnone. by rewrite filter_none.
Qed.

Lemma runUpdates_isolated_witness :
  let calls := [(lit "SOL/USDC", ofZ 150); (lit "BTC/USD", ofZ 60000);
                (lit "SOL/USDC", ofZ 151)] in
  getPriceHistory (runUpdates calls) (lit "SOL/USDC") = [ofZ 150; ofZ 151]
  /\ getPriceHistory (runUpdates calls) (lit "ETH/USD") = [].
Proof.
  intros calls. split.
  - rewrite (proj1 (runUpdates_isolated calls (lit "SOL/USDC"))).
    vm_compute. reflexivity.
  - apply (proj2 (runUpdates_isolated calls (lit "ETH/USD"))).
    repeat constructor; discriminate.
Defined.

(** ** The maximum position is the first number of the text *)

Lemma digit_not_space (c : ascii) : isDigit c = true -> isSpace c = false.
Proof. destruct c as [[] [] [] [] [] [] [] []]; vm_compute; congruence. Qed.

Lemma digit_not_dollar (c : ascii) : isDigit c = true -> ascii_eqb "$" c = false.
Proof. destruct c as [[] [] [] [] [] [] [] []]; vm_compute; congruence. Qed.

Lemma matches_star_space (ci : bool) (w : str) :
  matches ci (Star Space) w -> Forall (fun c => isSpace c = true) w.
Proof.
  intros H. remember (Star Space) as r eqn:Hr.
  induction H as [| | | | | | | |r0 w1 w2 H1 _ H2 IH2 |]; try discriminate.
  - constructor.
  - injection Hr as ->. apply Forall_app. split; [|by apply IH2].
    inversion H1; subst. by repeat constructor.
Qed.

(** A word of white space at the head of [u ++ d :: s], where [d] is a
    digit, lies within [u]. *)
Lemma spaces_within (w s' u : str) (d : ascii) (s : str) :
  Forall (fun c => isSpace c = true) w -> isDigit d = true ->
  w ++ s' = u ++ d :: s -> exists u', u = w ++ u' /\ s' = u' ++ d :: s.
Proof.
  intros Hw Hd. revert u. induction Hw as [|c w Hc _ IH]; intros u Heq.
  - exists u. by split.
  - destruct u as [|c' u]; cbn in Heq; injection Heq as -> Heq.
    + rewrite (digit_not_space _ Hd) in Hc. discriminate.
    + destruct (IH u Heq) as (u' & -> & ->). by exists u'.
Qed.

Lemma matches_amount_head (ci : bool) (w : str) :
  matches ci (Group amountBody) w -> exists d w', w = d :: w' /\ isDigit d = true.
Proof.
  intros H. inversion H as [| | | | | | | | |r0 w0 Hb]; subst.
  inversion Hb as [| | | |r1 r2 w1 w2 Hp _| | | | |]; subst.
  inversion Hp as [| | | |r1 r2 w3 w4 Hd _| | | | |]; subst.
  inversion Hd; subst. cbn. eauto.
Qed.

Lemma run_amount_nondigit (R : Type) (c : ascii) (s : str) (cap : option str)
    (k : str -> option str -> option R) :
  isDigit c = false -> run false R (Group amountBody) (c :: s) cap k = None.
Proof.
  intros Hc. destruct (run _ _ _ _ _ _) as [x|] eqn:E; [|done].
  apply run_sound in E as (w & s' & _ & Hw & Hm & _).
  apply matches_amount_head in Hm as (d & w' & -> & Hd).
  cbn in Hw. injection Hw as -> _. congruence.
Qed.

(** The greedy loop over the digits takes them all when the rest of the
    pattern accepts what follows. *)
Lemma star_digit_all (R : Type) (ds rest : str) (cap : option str)
    (k : str -> option str -> option R) (x : R) :
  Forall (fun c => isDigit c = true) ds ->
  k rest cap = Some x ->
  (match rest with c :: _ => isDigit c = false | [] => True end) ->
  run false R (Star Digit) (ds ++ rest) cap k = Some x.
Proof.
  intros Hds Hk Hrest. cbn [run].
  assert (H : forall n, (length ds <= n)%nat ->
    (fix loop (n : nat) (s : str) (cap : option str) {struct n} : option R :=
       match n with
       | 0%nat => k s cap
       | S n' =>
           match
             match s with
             | [] => None
             | x0 :: s' =>
                 if isDigit x0
                 then if (length s' <? length s)%nat then loop n' s' cap else None
                 else None
             end
           with
           | Some x0 => Some x0
           | None => k s cap
           end
       end) n (ds ++ rest) cap = Some x).
  { induction Hds as [|d ds Hd _ IH]; intros n Hn.
    - cbn [app]. destruct n; [done|]. destruct rest as [|c rest]; [done|].
      by rewrite Hrest.
    - destruct n as [|n]; [cbn in Hn; lia|]. cbn [app]. rewrite Hd.
      destruct (Nat.ltb_spec (length (ds ++ rest)) (length (d :: ds ++ rest)));
        [|cbn [length] in *; lia].
      rewrite IH by (cbn in Hn; lia). done. }
  apply H. rewrite length_app. lia.
Qed.

Lemma run_fails (ci : bool) (R : Type) (r : regex) (s : str) (cap : option str)
    (k : str -> option str -> option R) :
  (forall w s', s = w ++ s' -> ~ matches ci r w) -> run ci R r s cap k = None.
Proof.
  intros H. destruct (run ci R r s cap k) as [x|] eqn:E; [|done].
  apply run_sound in E as (w & s' & _ & Hw & Hm & _). by destruct (H w s' Hw).
Qed.

Lemma no_thousands (rest : str) :
  continuesNumber rest = false ->
  forall w s', rest = w ++ s' ->
               ~ matches false (Seq (Chr ",") (Times 3 Digit)) w.
Proof.
  intros Hc w s' -> Hm.
  inversion Hm as [| | | |r1 r2 w1 w2 H1 H2| | | | |]; subst.
  inversion H1 as [|c x Hx| | | | | | | |]; subst.
  inversion H2 as [| | | |? ? ? ? Ha H3| | | | |]; subst.
  inversion H3 as [| | | |? ? ? ? Hb H4| | | | |]; subst.
  inversion H4 as [| | | |? ? ? ? Hd _| | | | |]; subst.
  inversion Ha; inversion Hb; inversion Hd; subst.
  unfold chr_matches, ascii_eqb in Hx. apply Ascii.eqb_eq in Hx. subst x.
  cbn in Hc.
  repeat match goal with H : isDigit _ = true |- _ => rewrite H in Hc end.
  done.
Qed.

Lemma no_cents (rest : str) :
  continuesNumber rest = false ->
  forall w s', rest = w ++ s' ->
               ~ matches false (Seq (Chr ".") (Times 2 Digit)) w.
Proof.
  intros Hc w s' -> Hm.
  inversion Hm as [| | | |r1 r2 w1 w2 H1 H2| | | | |]; subst.
  inversion H1 as [|c x Hx| | | | | | | |]; subst.
  inversion H2 as [| | | |? ? ? ? Ha H3| | | | |]; subst.
  inversion H3 as [| | | |? ? ? ? Hb _| | | | |]; subst.
  inversion Ha; inversion Hb; subst.
  unfold chr_matches, ascii_eqb in Hx. apply Ascii.eqb_eq in Hx. subst x.
  cbn in Hc.
  repeat match goal with H : isDigit _ = true |- _ => rewrite H in Hc end.
  done.
Qed.

Lemma run_seq (ci : bool) (R : Type) (r1 r2 : regex) (s : str) (cap : option str)
    (k : str -> option str -> option R) :
  run ci R (Seq r1 r2) s cap k
  = run ci R r1 s cap (fun s' cap' => run ci R r2 s' cap' k).
Proof. reflexivity. Qed.

Lemma run_star_skip (ci : bool) (R : Type) (r : regex) (s : str) (cap : option str)
    (k : str -> option str -> option R) :
  (forall k', run ci R r s cap k' = None) -> run ci R (Star r) s cap k = k s cap.
Proof. intros H. cbn [run]. destruct (length s); [done|]. by rewrite H. Qed.

Lemma run_opt_skip (ci : bool) (R : Type) (r : regex) (s : str) (cap : option str)
    (k : str -> option str -> option R) :
  (forall k', run ci R r s cap k' = None) -> run ci R (Opt r) s cap k = k s cap.
Proof. intros H. unfold Opt. cbn [run]. by rewrite H. Qed.

Lemma run_digit (ci : bool) (R : Type) (d : ascii) (s : str) (cap : option str)
    (k : str -> option str -> option R) :
  isDigit d = true -> run ci R Digit (d :: s) cap k = k s cap.
Proof. intros H. cbn [run]. by rewrite H. Qed.

Lemma continuesNumber_head (rest : str) :
  continuesNumber rest = false ->
  match rest with c :: _ => isDigit c = false | [] => True end.
Proof.
  destruct rest as [|c rest]; [done|]. cbn. by destruct (isDigit c).
Qed.

(** At a run of digits that does not go on as a number, the group takes
    exactly the run. *)
Lemma run_amount_number (ds rest : str) (cap : option str) :
  ds <> [] -> Forall (fun c => isDigit c = true) ds ->
  continuesNumber rest = false ->
  run false (option str) (Group amountBody) (ds ++ rest) cap
      (fun _ cap' => Some cap') = Some (Some ds).
Proof.
  intros Hne Hds Hrest. destruct ds as [|d ds]; [done|].
  inversion Hds as [|? ? Hd Hds']; subst.
  cbn [run]. unfold amountBody, Plus. rewrite !run_seq.
  cbn [app]. rewrite run_digit by done.
  apply star_digit_all; [done| |by apply continuesNumber_head].
  rewrite run_seq, run_star_skip.
  2:{ intros k'. apply run_fails. by apply no_thousands. }
  rewrite run_opt_skip.
  2:{ intros k'. apply run_fails. by apply no_cents. }
  do 2 f_equal.
  replace (length (d :: ds ++ rest) - length rest)%nat with (length (d :: ds))
    by (cbn [length]; rewrite length_app; lia).
  apply (take_app_length (d :: ds) rest).
Qed.

Lemma dollars_amount :
  StrategyParser.re_dollars = Seq (Opt (Chr "$")) (Seq StrategyParser.s_star (Group amountBody)).
Proof. reflexivity. Qed.

Lemma run_dollars_at (ds rest : str) :
  ds <> [] -> Forall (fun c => isDigit c = true) ds ->
  continuesNumber rest = false ->
  run false (option str) StrategyParser.re_dollars (ds ++ rest) None (fun _ cap' => Some cap')
  = Some (Some ds).
Proof.
  intros Hne Hds Hrest. rewrite dollars_amount, run_seq.
  assert (exists d s, ds ++ rest = d :: s /\ isDigit d = true) as (d & s & Es & Hd).
  { destruct ds as [|d ds]; [done|]. inversion Hds; subst. by exists d, (ds ++ rest). }
  rewrite run_opt_skip.
  2:{ intros k'. rewrite Es. cbn [run]. unfold chr_matches.
      by rewrite (digit_not_dollar _ Hd). }
  unfold StrategyParser.s_star. rewrite run_seq, run_star_skip.
  2:{ intros k'. rewrite Es. cbn [run]. by rewrite (digit_not_space _ Hd). }
  by apply run_amount_number.
Qed.

(** A word without digits at the head of [u ++ d :: s], where [d] is a
    digit, lies within [u]. *)
Lemma nondigits_within (w s' u : str) (d : ascii) (s : str) :
  digitFree w -> isDigit d = true ->
  w ++ s' = u ++ d :: s -> exists u', u = w ++ u' /\ s' = u' ++ d :: s.
Proof.
  intros Hw Hd. revert u. induction Hw as [|c w Hc _ IH]; intros u Heq.
  - exists u. by split.
  - destruct u as [|c' u]; cbn in Heq; injection Heq as -> Heq.
    + congruence.
    + destruct (IH u Heq) as (u' & -> & ->). by exists u'.
Qed.

Lemma space_not_digit (c : ascii) : isSpace c = true -> isDigit c = false.
Proof. destruct c as [[] [] [] [] [] [] [] []]; vm_compute; congruence. Qed.

Lemma matches_opt_dollar (w : str) :
  matches false (Opt (Chr "$")) w -> digitFree w.
Proof.
  intros H. inversion H as [| | | | |r1 r2 w0 H1|r1 r2 w0 H1| | |]; subst.
  - inversion H1 as [|c x Hx| | | | | | | |]; subst.
    unfold chr_matches, ascii_eqb in Hx. apply Ascii.eqb_eq in Hx. subst x.
    by repeat constructor.
  - inversion H1. constructor.
Qed.

(** Wherever the dollar pattern matches before the first digit of the
    text, its group is the first run of digits. *)
Lemma run_dollars_only (u ds rest : str) (x : option str) :
  digitFree u -> ds <> [] -> Forall (fun c => isDigit c = true) ds ->
  continuesNumber rest = false ->
  run false (option str) StrategyParser.re_dollars (u ++ ds ++ rest) None
      (fun _ cap' => Some cap') = Some x ->
  x = Some ds.
Proof.
  intros Hu Hne Hds Hrest H.
  destruct ds as [|d ds]; [done|]. pose proof Hds as Hds0.
  inversion Hds as [|? ? Hd Hds']; subst.
  rewrite dollars_amount, run_seq in H.
  apply run_sound in H as (w1 & s1 & cap1 & E1 & Hm1 & H).
  apply matches_opt_dollar in Hm1.
  symmetry in E1. cbn [app] in E1.
  apply nondigits_within in E1 as (u1 & -> & ->); [|done..].
  apply Forall_app in Hu as [_ Hu1].
  unfold StrategyParser.s_star in H. rewrite run_seq in H.
  apply run_sound in H as (w2 & s2 & cap2 & E2 & Hm2 & H).
  apply matches_star_space in Hm2.
  assert (Hw2 : digitFree w2).
  { eapply Forall_impl; [exact Hm2|]. intros c. apply space_not_digit. }
  symmetry in E2.
  apply nondigits_within in E2 as (u2 & -> & ->); [|done..].
  apply Forall_app in Hu1 as [_ Hu2].
  destruct u2 as [|c u2].
  - cbn [app] in H.
    change (d :: ds ++ rest) with ((d :: ds) ++ rest) in H.
    rewrite run_amount_number in H by done. by injection H as <-.
  - inversion Hu2; subst. cbn [app] in H.
    rewrite run_amount_nondigit in H by done. done.
Qed.

Lemma match_unfold (ci : bool) (r : regex) (s : str) :
  match_ ci r s
  = match run ci (option str) r s None (fun _ cap => Some cap) with
    | Some cap => Some cap
    | None => match s with [] => None | _ :: s' => match_ ci r s' end
    end.
Proof. by destruct s. Qed.

Lemma match_dollars_first (pre ds rest : str) :
  digitFree pre -> ds <> [] -> Forall (fun c => isDigit c = true) ds ->
  continuesNumber rest = false ->
  match_ false StrategyParser.re_dollars (pre ++ ds ++ rest) = Some (Some ds).
Proof.
  intros Hpre Hne Hds Hrest. induction Hpre as [|c pre Hc Hpre IH].
  - rewrite match_unfold. cbn [app]. by rewrite run_dollars_at.
  - rewrite match_unfold.
    destruct (run _ _ _ _ _ _) as [x|] eqn:E.
    + apply (run_dollars_only (c :: pre)) in E; [by subst| |done..].
      by constructor.
    + cbn [app]. apply IH.
Qed.

